(** * RgbdSlamNode: callbacks, timers and the latest-transform cell

    A shallow embedding of [rgbd/rgbd-slam-node.cpp].  Every callback of
    [RgbdSlamNode] is a program over the atomic actions the C++ body
    performs, in source order: taking and releasing [latestTimeMutex_],
    reading and writing the node's fields, calling a method of
    [interface_] (the ORB-SLAM3 wrapper, which is opaque here), handing a
    message to a publisher or to the transform broadcaster.

    One program text has two readings.  [run] executes one callback to
    completion and [spin] a sequence of them: what an executor that runs
    one callback at a time does (the constructor passes no callback group
    to any subscription, timer or service).  [sched_step] executes one
    action of one of several callback instances: what an executor that
    runs callbacks on several threads may do, and what
    [latestTimeMutex_] is there for.  An action is the unit of
    interleaving: a field access, a mutex operation, one call into the
    wrapper, one publish. *)

From Stdlib Require Import ZArith Floats.
From stdpp Require Import base option list strings.

Set Default Proof Using "Type".
Local Open Scope Z_scope.

(** ** Message schemas *)

(** [builtin_interfaces/Time]. *)
Record Time : Type := mkTime { sec : Z; nanosec : Z }.

(** [std_msgs/Header]. *)
Record Header : Type := mkHeader { stamp : Time; frame_id : string }.

Definition Time_default : Time := mkTime 0 0.
Definition Header_default : Header := mkHeader Time_default "".

(** [geometry_msgs/Point], [Quaternion] and [Pose]; coordinates are C++
    [double], that is IEEE binary64. *)
Record Point : Type := mkPoint { pt_x : float; pt_y : float; pt_z : float }.
Record Quaternion : Type :=
  mkQuaternion { q_x : float; q_y : float; q_z : float; q_w : float }.
Record Pose : Type := mkPose { position : Point; orientation : Quaternion }.

(** [nav_msgs/MapMetaData] and [nav_msgs/OccupancyGrid]. *)
Record MapMetaData : Type := mkMapMetaData {
  map_load_time : Time;
  resolution : float;
  width : Z;
  height : Z;
  origin : Pose
}.

Record OccupancyGrid : Type := mkOccupancyGrid {
  og_header : Header;
  info : MapMetaData;
  og_data : list Z
}.

(** The parts of the messages the node hands over without looking inside,
    and the values a default-constructed message or a defaulted argument
    has. *)
Class Payloads : Type := {
  Image : Type;
  Imu : Type;
  PoseTwist : Type;
  Cloud : Type;
  Transform : Type;
  GridLayers : Type;
  MapData : Type;
  SE3f : Type;
  KeyFrameIds : Type;
  Cloud_default : Cloud;
  Transform_default : Transform;
  MapData_default : MapData;
  (** the value of the defaulted fourth argument of [mapDataToMsg] *)
  KeyFrameIds_default : KeyFrameIds
}.

Section Messages.
Context {P : Payloads}.

(** [nav_msgs/Odometry]. *)
Record Odometry : Type := mkOdometry {
  odom_header : Header;
  odom_child_frame_id : string;
  odom_pose_twist : PoseTwist
}.

(** [sensor_msgs/PointCloud2]. *)
Record PointCloud2 : Type := mkPointCloud2 {
  pc_header : Header;
  pc_cloud : Cloud
}.

(** [geometry_msgs/TransformStamped]. *)
Record TransformStamped : Type := mkTransformStamped {
  tf_header : Header;
  child_frame_id : string;
  transform : Transform
}.

(** [grid_map_msgs/GridMap]. *)
Record GridMap : Type := mkGridMap {
  gm_header : Header;
  gm_layers : GridLayers
}.

(** [slam_msgs/srv/GetMap]: the two request fields [getMapServer] reads
    and the response field it writes. *)
Record GetMapRequest : Type := mkGetMapRequest {
  tracked_points : bool;
  kf_id_for_landmarks : KeyFrameIds
}.

Record GetMapResponse : Type := mkGetMapResponse { data : MapData }.

Definition PointCloud2_default : PointCloud2 :=
  mkPointCloud2 Header_default Cloud_default.

Definition TransformStamped_default : TransformStamped :=
  mkTransformStamped Header_default "" Transform_default.
End Messages.

(** ** The ORB-SLAM3 interface

    [interface_] is a [std::shared_ptr<ORBSLAM3Interface>].  Its methods
    are the ones the node calls; an argument passed by non-const reference
    comes back as a result.  [System] is whatever the wrapper keeps between
    calls. *)
Class ORBSLAM3Interface {P : Payloads} : Type := {
  System : Type;
  handleIMU : Imu -> System -> System;
  getMapToOdomTF :
    Odometry -> TransformStamped -> System -> TransformStamped * System;
  trackRGBDi : Image -> Image -> System -> (bool * SE3f) * System;
  handleLidarPCL : Time -> PointCloud2 -> System -> System;
  getTraversabilityData : System -> (OccupancyGrid * GridMap) * System;
  getCurrentMapPoints : PointCloud2 -> System -> PointCloud2 * System;
  mapDataToMsg :
    MapData -> bool -> bool -> KeyFrameIds -> System -> MapData * System
}.

(** ** Node state *)

(** The parameters read once in the constructor.  [bUseViewer] (the
    [visualization] parameter) is a local of the constructor, handed to the
    wrapper; [rosViz_] is the [ros_visualization] parameter. *)
Record Params : Type := mkParams {
  bUseViewer : bool;
  rosViz_ : bool;
  robot_base_frame_id_ : string;
  global_frame_ : string;
  odom_frame_id_ : string;
  robot_x_ : float;
  robot_y_ : float
}.

(** The defaults given to [declare_parameter]. *)
Definition Params_default : Params :=
  mkParams true false "base_link" "map" "odom" 1%float 1%float.

Section Node.
Context {P : Payloads} {I : ORBSLAM3Interface}.

(** The fields the callbacks read and write after construction. *)
Record Node : Type := mkNode {
  latestTime_ : Time;
  tfMapOdom_ : TransformStamped;
  isTracked_ : bool
}.

(** Modelled from the spec: the initial values of the three fields.
    They are set where the fields are declared, in [rgbd-slam-node.hpp];
    the constructor does not assign them.  The flag starts false; the
    stored time and transform start default-constructed. *)
Definition Node_init : Node :=
  mkNode Time_default TransformStamped_default false.

(** The node, the wrapper's state and the owner of [latestTimeMutex_]
    (a thread id) if it is taken. *)
Record World : Type := mkWorld {
  node : Node;
  engine : System;
  mutex : option nat
}.

Definition World_init (s : System) : World := mkWorld Node_init s None.

Definition with_node (n : Node) (w : World) : World :=
  mkWorld n (engine w) (mutex w).
Definition with_engine (s : System) (w : World) : World :=
  mkWorld (node w) s (mutex w).
Definition with_mutex (m : option nat) (w : World) : World :=
  mkWorld (node w) (engine w) m.

Definition with_latestTime (t : Time) (n : Node) : Node :=
  mkNode t (tfMapOdom_ n) (isTracked_ n).
Definition with_tfMapOdom (tf : TransformStamped) (n : Node) : Node :=
  mkNode (latestTime_ n) tf (isTracked_ n).
Definition with_isTracked (b : bool) (n : Node) : Node :=
  mkNode (latestTime_ n) (tfMapOdom_ n) b.

(** ** Atomic actions *)

Inductive Severity : Type := DEBUG | INFO.

Inductive Act : Type :=
(* std::lock_guard<std::mutex> on latestTimeMutex_ : construction, scope exit *)
| lock_latestTimeMutex
| unlock_latestTimeMutex
(* fields *)
| set_latestTime (t : Time)
| get_latestTime
| get_tfMapOdom
| set_isTracked (b : bool)
| get_isTracked
(* interface_->... *)
| call_handleIMU (msgIMU : Imu)
| call_getMapToOdomTF (msgOdom : Odometry)
| call_trackRGBDi (msgRGB msgD : Image)
| call_handleLidarPCL (t : Time) (msgLidar : PointCloud2)
| call_getTraversabilityData
| call_getCurrentMapPoints (mapPCL : PointCloud2)
| call_mapDataToMsg (mapDataMsg : MapData) (b1 b2 : bool) (kf : KeyFrameIds)
(* outputs *)
| tfBroadcaster_sendTransform (tf : TransformStamped)
| mapDataPub_publish (m : MapData)
| mapPointsPub_publish (m : PointCloud2)
| gridmapPub_publish (m : OccupancyGrid)
| traversabilityPub_publish (m : GridMap)
| RCLCPP_LOG (s : Severity) (text : string).

(** What an action gives back to the code after it. *)
Definition res (a : Act) : Type :=
  match a with
  | get_latestTime => Time
  | get_tfMapOdom => TransformStamped
  | get_isTracked => bool
  | call_getMapToOdomTF _ => TransformStamped
  | call_trackRGBDi _ _ => (bool * SE3f)%type
  | call_getTraversabilityData => (OccupancyGrid * GridMap)%type
  | call_getCurrentMapPoints _ => PointCloud2
  | call_mapDataToMsg _ _ _ _ => MapData
  | _ => unit
  end.

Inductive ActKind : Type :=
  KMutex | KField | KEngine | KPublish | KLog.

Definition kind (a : Act) : ActKind :=
  match a with
  | lock_latestTimeMutex | unlock_latestTimeMutex => KMutex
  | set_latestTime _ | get_latestTime | get_tfMapOdom
  | set_isTracked _ | get_isTracked => KField
  | call_handleIMU _ | call_getMapToOdomTF _ | call_trackRGBDi _ _
  | call_handleLidarPCL _ _ | call_getTraversabilityData
  | call_getCurrentMapPoints _ | call_mapDataToMsg _ _ _ _ => KEngine
  | tfBroadcaster_sendTransform _ | mapDataPub_publish _
  | mapPointsPub_publish _ | gridmapPub_publish _
  | traversabilityPub_publish _ => KPublish
  | RCLCPP_LOG _ _ => KLog
  end.

(** [exec tid a w]: thread [tid] performs [a] in [w].  [None] when the
    action cannot proceed: the mutex is taken, or is released by a
    thread that does not own it.

    [getMapToOdomTF] receives [tfMapOdom_] by reference: the call reads
    and overwrites the field, and the new value is also the action's
    result. *)
Definition exec (tid : nat) (a : Act) (w : World) : option (res a * World) :=
  match a return option (res a * World) with
  | lock_latestTimeMutex =>
      match mutex w with
      | None => Some (tt, with_mutex (Some tid) w)
      | Some _ => None
      end
  | unlock_latestTimeMutex =>
      match mutex w with
      | Some o => if Nat.eqb o tid then Some (tt, with_mutex None w) else None
      | None => None
      end
  | set_latestTime t => Some (tt, with_node (with_latestTime t (node w)) w)
  | get_latestTime => Some (latestTime_ (node w), w)
  | get_tfMapOdom => Some (tfMapOdom_ (node w), w)
  | set_isTracked b => Some (tt, with_node (with_isTracked b (node w)) w)
  | get_isTracked => Some (isTracked_ (node w), w)
  | call_handleIMU m => Some (tt, with_engine (handleIMU m (engine w)) w)
  | call_getMapToOdomTF m =>
      let r := getMapToOdomTF m (tfMapOdom_ (node w)) (engine w) in
      Some (fst r, with_engine (snd r) (with_node (with_tfMapOdom (fst r) (node w)) w))
  | call_trackRGBDi rgb d =>
      let r := trackRGBDi rgb d (engine w) in
      Some (fst r, with_engine (snd r) w)
  | call_handleLidarPCL t m =>
      Some (tt, with_engine (handleLidarPCL t m (engine w)) w)
  | call_getTraversabilityData =>
      let r := getTraversabilityData (engine w) in
      Some (fst r, with_engine (snd r) w)
  | call_getCurrentMapPoints pcl =>
      let r := getCurrentMapPoints pcl (engine w) in
      Some (fst r, with_engine (snd r) w)
  | call_mapDataToMsg m b1 b2 kf =>
      let r := mapDataToMsg m b1 b2 kf (engine w) in
      Some (fst r, with_engine (snd r) w)
  | tfBroadcaster_sendTransform _ | mapDataPub_publish _
  | mapPointsPub_publish _ | gridmapPub_publish _
  | traversabilityPub_publish _ | RCLCPP_LOG _ _ => Some (tt, w)
  end.

(** ** Programs *)

Inductive Prog (A : Type) : Type :=
| Ret (r : A)
| Vis (a : Act) (k : res a -> Prog A).
Global Arguments Ret {A} r.
Global Arguments Vis {A} a k.

Fixpoint bind {A B : Type} (p : Prog A) (f : A -> Prog B) : Prog B :=
  match p with
  | Ret r => f r
  | Vis a k => Vis a (fun x => bind (k x) f)
  end.

Definition act (a : Act) : Prog (res a) := Vis a Ret.

Global Instance Prog_ret : MRet Prog := @Ret.
Global Instance Prog_bind : MBind Prog := fun A B f p => bind p f.

(** One executed action: who ran it, who held the mutex just before,
    the action and what it gave back. *)
Record Event : Type := mkEvent {
  ev_tid : nat;
  ev_held : option nat;
  ev_act : Act;
  ev_res : res ev_act
}.

(** [run tid p w]: [p] executed to its end by thread [tid] with nothing
    in between; the result, the final world and the actions in the order
    they ran. *)
Fixpoint run {A : Type} (tid : nat) (p : Prog A) (w : World)
  : option (A * World * list Event) :=
  match p with
  | Ret r => Some (r, w, [])
  | Vis a k =>
      match exec tid a w with
      | None => None
      | Some (x, w1) =>
          match run tid (k x) w1 with
          | None => None
          | Some (r, w2, evs) => Some (r, w2, mkEvent tid (mutex w) a x :: evs)
          end
      end
  end.

(** ** The callbacks *)

(** A [std::lock_guard] declared first in a function body: the mutex is
    taken there and released when the body is left. *)
Definition lock_guard {A : Type} (body : Prog A) : Prog A :=
  act lock_latestTimeMutex;;
  r ← body;
  act unlock_latestTimeMutex;;
  mret r.

Definition ImuCallback (msgIMU : Imu) : Prog unit :=
  act (RCLCPP_LOG DEBUG "ImuCallback");;
  act (call_handleIMU msgIMU).

Definition OdomCallback (msgOdom : Odometry) : Prog unit :=
  lock_guard (
    act (set_latestTime (stamp (odom_header msgOdom)));;
    act (RCLCPP_LOG DEBUG "OdomCallback");;
    act (call_getMapToOdomTF msgOdom);;
    mret tt).

(** The point-cloud publish is a comment in the source; the body only
    fills [mapPCL]. *)
Definition publishMapPointCloud : Prog unit :=
  act (call_getCurrentMapPoints PointCloud2_default);;
  mret tt.

Definition RGBDCallback (cfg : Params) (msgRGB msgD : Image) : Prog unit :=
  r ← act (call_trackRGBDi msgRGB msgD);
  if fst (r : bool * SE3f) then
    act (set_isTracked true);;
    tf ← act get_tfMapOdom;
    act (tfBroadcaster_sendTransform tf);;
    if rosViz_ cfg then publishMapPointCloud else mret tt
  else mret tt.

Definition LidarCallback (msgLidar : PointCloud2) : Prog unit :=
  act (call_handleLidarPCL (stamp (pc_header msgLidar)) msgLidar).

(** [map.first] after the four assignments of [publishTraversabilityData]. *)
Definition place_and_stamp (cfg : Params) (t : Time) (g : OccupancyGrid)
  : OccupancyGrid :=
  let o := origin (info g) in
  let p := position o in
  let p' := mkPoint (pt_x p + robot_x_ cfg)%float
                    (pt_y p + robot_y_ cfg)%float (pt_z p) in
  let i := info g in
  mkOccupancyGrid
    (mkHeader t (global_frame_ cfg))
    (mkMapMetaData (map_load_time i) (resolution i) (width i) (height i)
                   (mkPose p' (orientation o)))
    (og_data g).

Definition publishTraversabilityData (cfg : Params) : Prog unit :=
  lock_guard (
    map ← act call_getTraversabilityData;
    t ← act get_latestTime;
    let map : OccupancyGrid * GridMap := map in
    act (gridmapPub_publish (place_and_stamp cfg t (fst map)));;
    act (traversabilityPub_publish (snd map))).

Definition publishMapData : Prog unit :=
  tracked ← act get_isTracked;
  if (tracked : bool) then
    act (RCLCPP_LOG INFO "Publishing map data");;
    mapDataMsg ← act (call_mapDataToMsg MapData_default true false
                                         KeyFrameIds_default);
    act (mapDataPub_publish mapDataMsg)
  else mret tt.

Definition getMapServer (request : GetMapRequest) : Prog GetMapResponse :=
  act (RCLCPP_LOG INFO "GetMap2 service called.");;
  mapDataMsg ← act (call_mapDataToMsg MapData_default false
                      (tracked_points request) (kf_id_for_landmarks request));
  mret (mkGetMapResponse mapDataMsg).

(** ** The executor *)

(** What the executor can hand to the node: a message on a subscription,
    a matched image pair from [syncApproximate_], a timer firing, a
    service request. *)
Inductive Invocation : Type :=
| OnImu (msgIMU : Imu)
| OnOdom (msgOdom : Odometry)
| OnRGBD (msgRGB msgD : Image)
| OnLidar (msgLidar : PointCloud2)
| OnTraversabilityTimer
| OnMapDataTimer
| OnGetMap (request : GetMapRequest).

(** The callback bound to each of them in the constructor. *)
Definition dispatch (cfg : Params) (inv : Invocation) : Prog unit :=
  match inv with
  | OnImu m => ImuCallback m
  | OnOdom m => OdomCallback m
  | OnRGBD rgb d => RGBDCallback cfg rgb d
  | OnLidar m => LidarCallback m
  | OnTraversabilityTimer => publishTraversabilityData cfg
  | OnMapDataTimer => publishMapData
  | OnGetMap request => getMapServer request;; mret tt
  end.

(** A single-threaded executor: one callback after the other, each to
    its end, all on thread [tid]. *)
Fixpoint spin (cfg : Params) (tid : nat) (invs : list Invocation) (w : World)
  : option (World * list Event) :=
  match invs with
  | [] => Some (w, [])
  | inv :: rest =>
      match run tid (dispatch cfg inv) w with
      | None => None
      | Some (_, w1, evs1) =>
          match spin cfg tid rest w1 with
          | None => None
          | Some (w2, evs2) => Some (w2, evs1 ++ evs2)
          end
      end
  end.

(** A multi-threaded executor.  Every callback instance is a thread of
    its own, named by its position in [pool]; a finished one stays there
    as [Ret tt].  [trace] has the newest action first. *)
Record Config : Type := mkConfig {
  pool : list (Prog unit);
  world : World;
  trace : list Event
}.

Definition Config_init (s : System) : Config :=
  mkConfig [] (World_init s) [].

Inductive Sched : Type :=
| Spawn (inv : Invocation)    (* a callback instance starts *)
| Step (i : nat)              (* thread [i] performs its next action *)
| Background (s : System).    (* the wrapper's own threads moved its state *)

Definition sched_step (cfg : Params) (s : Sched) (c : Config) : option Config :=
  match s with
  | Spawn inv => Some (mkConfig (pool c ++ [dispatch cfg inv]) (world c) (trace c))
  | Step i =>
      match pool c !! i with
      | Some (Vis a k) =>
          match exec i a (world c) with
          | Some (x, w1) =>
              Some (mkConfig (<[i := k x]> (pool c)) w1
                             (mkEvent i (mutex (world c)) a x :: trace c))
          | None => None
          end
      | _ => None
      end
  | Background s => Some (mkConfig (pool c) (with_engine s (world c)) (trace c))
  end.

Fixpoint sched_run (cfg : Params) (ss : list Sched) (c : Config) : option Config :=
  match ss with
  | [] => Some c
  | s :: rest =>
      match sched_step cfg s c with
      | None => None
      | Some c1 => sched_run cfg rest c1
      end
  end.

(** ** Reading a trace *)

Definition is_publish (e : Event) : bool :=
  match kind (ev_act e) with KPublish => true | _ => false end.

Definition is_engine_call (e : Event) : bool :=
  match kind (ev_act e) with KEngine => true | _ => false end.

Definition is_mutex_op (e : Event) : bool :=
  match kind (ev_act e) with KMutex => true | _ => false end.

(** The messages handed to each output, oldest first when the events
    are. *)
Definition sent_transform (e : Event) : option TransformStamped :=
  match ev_act e with tfBroadcaster_sendTransform tf => Some tf | _ => None end.
Definition sent_mapData (e : Event) : option MapData :=
  match ev_act e with mapDataPub_publish m => Some m | _ => None end.
Definition sent_mapPoints (e : Event) : option PointCloud2 :=
  match ev_act e with mapPointsPub_publish m => Some m | _ => None end.
Definition sent_gridmap (e : Event) : option OccupancyGrid :=
  match ev_act e with gridmapPub_publish m => Some m | _ => None end.
Definition sent_traversability (e : Event) : option GridMap :=
  match ev_act e with traversabilityPub_publish m => Some m | _ => None end.

Definition broadcasts (evs : list Event) : list TransformStamped :=
  omap sent_transform evs.
Definition mapData_msgs (evs : list Event) : list MapData :=
  omap sent_mapData evs.
Definition mapPoints_msgs (evs : list Event) : list PointCloud2 :=
  omap sent_mapPoints evs.
Definition gridmap_msgs (evs : list Event) : list OccupancyGrid :=
  omap sent_gridmap evs.
Definition traversability_msgs (evs : list Event) : list GridMap :=
  omap sent_traversability evs.

(** The arguments of a [mapDataToMsg] call, as written at the call. *)
Record MapQuery : Type := mkMapQuery {
  mq_msg : MapData;
  mq_flag1 : bool;
  mq_flag2 : bool;
  mq_kf : KeyFrameIds
}.

Definition map_query (e : Event) : option MapQuery :=
  match ev_act e with
  | call_mapDataToMsg m b1 b2 kf => Some (mkMapQuery m b1 b2 kf)
  | _ => None
  end.
Definition map_queries (evs : list Event) : list MapQuery := omap map_query evs.

Definition pointcloud_query (e : Event) : option PointCloud2 :=
  match ev_act e with call_getCurrentMapPoints m => Some m | _ => None end.
Definition pointcloud_queries (evs : list Event) : list PointCloud2 :=
  omap pointcloud_query evs.

(** The two writes of [OdomCallback] to the cell
    [(tfMapOdom_, latestTime_)]. *)
Definition time_written (e : Event) : option Time :=
  match ev_act e with set_latestTime t => Some t | _ => None end.

Definition tf_written (e : Event) : option TransformStamped :=
  match e with
  | mkEvent _ _ a r =>
      match a return res a -> option TransformStamped with
      | call_getMapToOdomTF _ => fun tf => Some tf
      | _ => fun _ => None
      end r
  end.

Definition is_write (a : Act) : bool :=
  match a with
  | set_latestTime _ | call_getMapToOdomTF _ => true
  | _ => false
  end.

(** [pending_time tr i] (newest first): the newest write in [tr] is a
    timestamp written by thread [i]; the timestamp. *)
Fixpoint pending_time (tr : list Event) (i : nat) : option Time :=
  match tr with
  | [] => None
  | e :: tr' =>
      match time_written e with
      | Some t => if Nat.eqb (ev_tid e) i then Some t else None
      | None => if is_write (ev_act e) then None else pending_time tr' i
      end
  end.

(** [latest_write init tr] (newest first): the cell as the newest
    complete write left it.  A complete write is a timestamp written by
    a thread followed by a transform written by the same thread, with no
    other write to the cell between the two.  [None] when the newest
    write is not complete: a timestamp whose transform has not been
    written, or a transform that does not follow a timestamp of its own
    thread. *)
Fixpoint latest_write (init : TransformStamped * Time) (tr : list Event)
  : option (TransformStamped * Time) :=
  match tr with
  | [] => Some init
  | e :: tr' =>
      match tf_written e with
      | Some tf =>
          match pending_time tr' (ev_tid e) with
          | Some t => Some (tf, t)
          | None => None
          end
      | None => if is_write (ev_act e) then None else latest_write init tr'
      end
  end.

Definition cell (w : World) : TransformStamped * Time :=
  (tfMapOdom_ (node w), latestTime_ (node w)).

(** ** Locking discipline of a program *)

(** Where a thread is with respect to the mutex and the cell: it does
    not hold the mutex; it holds it, with no write of its own under way;
    it holds it and has written the timestamp but not the transform. *)
Inductive Phase : Type := Outside | Clean | Dirty.

Definition next_phase (ph : Phase) (a : Act) : option Phase :=
  match a, ph with
  | lock_latestTimeMutex, Outside => Some Clean
  | lock_latestTimeMutex, _ => None
  | unlock_latestTimeMutex, Clean => Some Outside
  | unlock_latestTimeMutex, _ => None
  | set_latestTime _, Clean => Some Dirty
  | set_latestTime _, _ => None
  | call_getMapToOdomTF _, Dirty => Some Clean
  | call_getMapToOdomTF _, _ => None
  | get_latestTime, Clean => Some Clean
  | get_latestTime, _ => None
  | _, _ => Some ph
  end.

Fixpoint follows {A : Type} (ph : Phase) (p : Prog A) : Prop :=
  match p with
  | Ret _ => ph = Outside
  | Vis a k =>
      match next_phase ph a with
      | Some ph' => forall x, follows ph' (k x)
      | None => False
      end
  end.

(** A program that never writes [isTracked_ = false]. *)
Fixpoint never_clears {A : Type} (p : Prog A) : Prop :=
  match p with
  | Ret _ => True
  | Vis a k => a <> set_isTracked false /\ forall x, never_clears (k x)
  end.

(** [evs] is one critical section of thread [tid] around [body]: the
    lock is taken when free, every action of [body] runs with [tid]
    holding it, and the last action releases it. *)
Definition critical_section (tid : nat) (evs body : list Event) : Prop :=
  evs = mkEvent tid None lock_latestTimeMutex tt
          :: body ++ [mkEvent tid (Some tid) unlock_latestTimeMutex tt] /\
  Forall (fun e => ev_tid e = tid /\ ev_held e = Some tid /\
                   is_mutex_op e = false) body.

(** The actions that leave the mutex and the cell alone. *)
Definition neutral (a : Act) : bool :=
  match a with
  | lock_latestTimeMutex | unlock_latestTimeMutex
  | set_latestTime _ | call_getMapToOdomTF _ => false
  | _ => true
  end.

Definition cell_init : TransformStamped * Time :=
  (TransformStamped_default, Time_default).

(** What being in phase [ph] means for thread [i] in [c]. *)
Definition phase_ok (c : Config) (i : nat) (ph : Phase) : Prop :=
  match ph with
  | Outside => mutex (world c) <> Some i
  | Clean =>
      mutex (world c) = Some i /\
      latest_write cell_init (trace c) = Some (cell (world c))
  | Dirty =>
      mutex (world c) = Some i /\
      pending_time (trace c) i = Some (latestTime_ (node (world c)))
  end.

(** The invariant of the multi-threaded executor: every thread is in
    some phase of the discipline and never clears the flag; when nobody
    holds the mutex the cell is as the newest complete write left it;
    the holder of the mutex is a thread of the pool. *)
Definition Inv (c : Config) : Prop :=
  (forall i p, pool c !! i = Some p ->
     never_clears p /\ exists ph, follows ph p /\ phase_ok c i ph) /\
  (mutex (world c) = None ->
     latest_write cell_init (trace c) = Some (cell (world c))) /\
  (forall i, mutex (world c) = Some i -> (i < length (pool c))%nat).

(** The transforms [tfMapOdom_] has held up to the end of [tr]: the
    initial one and every result of [getMapToOdomTF]. *)
Definition stored_values (tr : list Event) : list TransformStamped :=
  TransformStamped_default :: omap tf_written tr.

(** Every transform broadcast in [tr] (newest first) had been held by
    [tfMapOdom_] before it was sent. *)
Fixpoint broadcasts_stored (tr : list Event) : Prop :=
  match tr with
  | [] => True
  | e :: tr' =>
      (forall tf, sent_transform e = Some tf -> tf ∈ stored_values tr') /\
      broadcasts_stored tr'
  end.

Definition tf_read (a : Act) : res a -> option TransformStamped :=
  match a return res a -> option TransformStamped with
  | get_tfMapOdom => fun tf => Some tf
  | _ => fun _ => None
  end.

(** A program that broadcasts only transforms from [allowed] or read from
    [tfMapOdom_] earlier in the same program. *)
Fixpoint sends_only {A : Type} (allowed : TransformStamped -> Prop)
    (p : Prog A) : Prop :=
  match p with
  | Ret _ => True
  | Vis a k =>
      (forall tf, a = tfBroadcaster_sendTransform tf -> allowed tf) /\
      forall x, sends_only (fun v => allowed v \/ tf_read a x = Some v) (k x)
  end.

(** The invariant behind the broadcasts of the multi-threaded executor. *)
Definition InvTf (c : Config) : Prop :=
  tfMapOdom_ (node (world c)) =
    default TransformStamped_default (head (omap tf_written (trace c))) /\
  (forall i p, pool c !! i = Some p ->
     exists allowed,
       sends_only allowed p /\
       forall v, allowed v -> v ∈ stored_values (trace c)) /\
  broadcasts_stored (trace c).

(** An [OnRGBD] invocation whose [trackRGBDi] call returns true in [w]. *)
Definition successful_track (inv : Invocation) (w : World) : bool :=
  match inv with
  | OnRGBD rgb d => fst (fst (trackRGBDi rgb d (engine w)))
  | _ => false
  end.

(** ** Further readings of invocations, events and programs *)

(** The callbacks whose body starts with the [lock_guard]. *)
Definition takes_lock (inv : Invocation) : bool :=
  match inv with
  | OnOdom _ | OnTraversabilityTimer => true
  | _ => false
  end.

(** The accesses that touch [latestTime_], or write the cell. *)
Definition guarded_access (a : Act) : bool :=
  match a with
  | set_latestTime _ | get_latestTime | call_getMapToOdomTF _ => true
  | _ => false
  end.

(** [unlocks_within n p]: on every path, [p] releases the mutex by its
    [n]-th action at the latest. *)
Fixpoint unlocks_within {A : Type} (n : nat) (p : Prog A) : Prop :=
  match p with
  | Ret _ => False
  | Vis a k =>
      match n with
      | O => False
      | S n' => a = unlock_latestTimeMutex \/ forall x, unlocks_within n' (k x)
      end
  end.

(** Every critical section of [p] is at most five actions long, the
    release included. *)
Fixpoint bounded_sections {A : Type} (p : Prog A) : Prop :=
  match p with
  | Ret _ => True
  | Vis a k =>
      (a = lock_latestTimeMutex -> forall x, unlocks_within 5 (k x)) /\
      forall x, bounded_sections (k x)
  end.

Definition InvRel (c : Config) : Prop :=
  forall i p, pool c !! i = Some p ->
    bounded_sections p /\ (mutex (world c) = Some i -> unlocks_within 5 p).

(** What each kind of sensor message becomes at the wrapper. *)
Definition imu_of (inv : Invocation) : option Imu :=
  match inv with OnImu m => Some m | _ => None end.
Definition odom_of (inv : Invocation) : option Odometry :=
  match inv with OnOdom m => Some m | _ => None end.
Definition rgbd_of (inv : Invocation) : option (Image * Image) :=
  match inv with OnRGBD rgb d => Some (rgb, d) | _ => None end.
Definition lidar_of (inv : Invocation) : option (Time * PointCloud2) :=
  match inv with OnLidar m => Some (stamp (pc_header m), m) | _ => None end.

Definition imu_call (e : Event) : option Imu :=
  match ev_act e with call_handleIMU m => Some m | _ => None end.
Definition odom_call (e : Event) : option Odometry :=
  match ev_act e with call_getMapToOdomTF m => Some m | _ => None end.
Definition rgbd_call (e : Event) : option (Image * Image) :=
  match ev_act e with call_trackRGBDi rgb d => Some (rgb, d) | _ => None end.
Definition lidar_call (e : Event) : option (Time * PointCloud2) :=
  match ev_act e with call_handleLidarPCL t m => Some (t, m) | _ => None end.

(** The stamp of the last odometry message of [invs], if there is one. *)
Definition last_odom_stamp (invs : list Invocation) : option Time :=
  (fun m => stamp (odom_header m)) <$> last (omap odom_of invs).

(** A [trackRGBDi] call that returned true. *)
Definition track_succeeded (e : Event) : bool :=
  match e with
  | mkEvent _ _ a r =>
      match a return res a -> bool with
      | call_trackRGBDi _ _ => fun r => fst r
      | _ => fun _ => false
      end r
  end.

Definition tracked_in (tr : list Event) : bool := existsb track_succeeded tr.

Definition is_mapData_publish (e : Event) : bool :=
  match ev_act e with mapDataPub_publish _ => true | _ => false end.

(** Every [mapDataPub_] publish in [tr] (newest first) has a successful
    [trackRGBDi] call before it. *)
Fixpoint published_after_track (tr : list Event) : Prop :=
  match tr with
  | [] => True
  | e :: tr' =>
      (is_mapData_publish e = true -> tracked_in tr' = true) /\
      published_after_track tr'
  end.

(** The actions that need a successful track behind them, and the results
    that give a program the evidence of one: [trackRGBDi] returning true,
    [isTracked_] read as true. *)
Definition needs_track (a : Act) : bool :=
  match a with
  | set_isTracked _ | mapDataPub_publish _ => true
  | _ => false
  end.

Definition grants (a : Act) : res a -> bool :=
  match a return res a -> bool with
  | call_trackRGBDi _ _ => fun r => fst r
  | get_isTracked => fun b => b
  | _ => fun _ => false
  end.

Fixpoint licensed {A : Type} (lic : bool) (p : Prog A) : Prop :=
  match p with
  | Ret _ => True
  | Vis a k =>
      (needs_track a = true -> lic = true) /\
      forall x, licensed (lic || grants a x) (k x)
  end.

Definition InvPub (c : Config) : Prop :=
  (isTracked_ (node (world c)) = true -> tracked_in (trace c) = true) /\
  (forall i p, pool c !! i = Some p ->
     exists lic, licensed lic p /\ (lic = true -> tracked_in (trace c) = true)) /\
  published_after_track (trace c).

(** The accesses to [tfMapOdom_] (read) and [isTracked_]. *)
Definition unguarded_access (a : Act) : bool :=
  match a with
  | get_tfMapOdom | set_isTracked _ | get_isTracked => true
  | _ => false
  end.

(** Whether a program holds the mutex after an action, given whether it
    held it before. *)
Definition held_after (held : bool) (a : Act) : bool :=
  match a with
  | lock_latestTimeMutex => true
  | unlock_latestTimeMutex => false
  | _ => held
  end.

(** A program that performs the accesses of [unguarded_access] only
    outside its own critical sections. *)
Fixpoint unguarded_outside {A : Type} (held : bool) (p : Prog A) : Prop :=
  match p with
  | Ret _ => True
  | Vis a k =>
      (unguarded_access a = true -> held = false) /\
      forall x, unguarded_outside (held_after held a) (k x)
  end.

Definition InvUng (c : Config) : Prop :=
  (forall i p, pool c !! i = Some p ->
     exists held, unguarded_outside held p /\
                  (held = false -> mutex (world c) <> Some i)) /\
  Forall (fun e => unguarded_access (ev_act e) = true ->
                   ev_held e <> Some (ev_tid e)) (trace c).

(** ** Reads of the stored transform in a trace *)

(** The newest action of thread [i] in [tr] (newest first), with the
    part of the trace before it. *)
Fixpoint last_of_thread (i : nat) (tr : list Event)
  : option (Event * list Event) :=
  match tr with
  | [] => None
  | e :: tr' =>
      if Nat.eqb (ev_tid e) i then Some (e, tr') else last_of_thread i tr'
  end.

(** The transform a [get_tfMapOdom] event read. *)
Definition tf_seen (e : Event) : option TransformStamped :=
  match e with mkEvent _ _ a r => tf_read a r end.

(** The transform [tfMapOdom_] holds after the writes of [tr]. *)
Definition stored_after (tr : list Event) : TransformStamped :=
  default TransformStamped_default (head (omap tf_written tr)).

(** Every broadcast of [tr] (newest first) sends the transform its thread
    read from [tfMapOdom_] in the action just before, and that read
    returned what the newest [getMapToOdomTF] call before the read had
    stored. *)
Fixpoint broadcasts_what_was_read (tr : list Event) : Prop :=
  match tr with
  | [] => True
  | e :: tr' =>
      (forall tf, sent_transform e = Some tf ->
         exists r older,
           last_of_thread (ev_tid e) tr' = Some (r, older) /\
           tf_seen r = Some tf /\
           tf = stored_after older) /\
      broadcasts_what_was_read tr'
  end.

(** A program that broadcasts only the transform it has read from
    [tfMapOdom_] in the action just before; [seen] is what the action
    before the program read, if it was such a read. *)
Fixpoint sends_what_it_read {A : Type} (seen : option TransformStamped)
    (p : Prog A) : Prop :=
  match p with
  | Ret _ => True
  | Vis a k =>
      (forall tf, a = tfBroadcaster_sendTransform tf -> seen = Some tf) /\
      forall x, sends_what_it_read (tf_read a x) (k x)
  end.

Definition InvRead (c : Config) : Prop :=
  (forall i p, pool c !! i = Some p ->
     exists seen,
       sends_what_it_read seen p /\
       forall tf, seen = Some tf ->
         exists r older,
           last_of_thread i (trace c) = Some (r, older) /\
           tf_seen r = Some tf /\
           tf = stored_after older) /\
  broadcasts_what_was_read (trace c).
End Node.

(** ** A small stand-in for the wrapper

    Used to evaluate the callbacks on concrete inputs.  An image is a
    frame number and tracking succeeds when the two numbers agree; the
    wrapper counts the calls it has served. *)
Module Stub.
#[export] Instance payloads : Payloads := {|
  Image := nat;
  Imu := nat;
  PoseTwist := Z;
  Cloud := list Z;
  Transform := Z;
  GridLayers := list string;
  MapData := list Z;
  SE3f := Z;
  KeyFrameIds := list Z;
  Cloud_default := [];
  Transform_default := 0;
  MapData_default := [];
  KeyFrameIds_default := []
|}.

Definition grid : OccupancyGrid :=
  mkOccupancyGrid
    (mkHeader (mkTime 3 0) "odom")
    (mkMapMetaData (mkTime 0 0) 1%float 2 2
       (mkPose (mkPoint 4%float 5%float 0%float)
               (mkQuaternion 0%float 0%float 0%float 1%float)))
    [0; 100; 0; -1].

Definition layers : GridMap :=
  mkGridMap (mkHeader (mkTime 3 0) "odom") ["traversability"].

#[export] Instance wrapper : ORBSLAM3Interface := {|
  System := nat;
  handleIMU := fun _ s => S s;
  getMapToOdomTF := fun m _ s =>
    (mkTransformStamped (mkHeader (stamp (odom_header m)) "map") "odom"
                        (odom_pose_twist m), S s);
  trackRGBDi := fun rgb d s => ((Nat.eqb rgb d, Z.of_nat rgb), S s);
  handleLidarPCL := fun _ _ s => S s;
  getTraversabilityData := fun s => ((grid, layers), S s);
  getCurrentMapPoints := fun pcl s =>
    (mkPointCloud2 (pc_header pcl) [Z.of_nat s], S s);
  mapDataToMsg := fun _ b1 b2 kf s =>
    ((if b1 then 1 else 0) :: (if b2 then 1 else 0) :: kf, S s)
|}.

Definition odom (t : Z) (p : Z) : Odometry :=
  mkOdometry (mkHeader (mkTime t 0) "odom") "base_link" p.

Definition viz : Params :=
  mkParams true true "base_link" "map" "odom" 1%float 1%float.

(** The node after one odometry message stamped 7 s. *)
Definition w1 : World :=
  mkWorld (mkNode (mkTime 7 0)
             (mkTransformStamped (mkHeader (mkTime 7 0) "map") "odom" 42)
             false)
          1%nat None.

(** The same once tracking has succeeded. *)
Definition w2 : World :=
  mkWorld (with_isTracked true (node w1)) 2%nat None.

(** One odometry message has been handled; the traversability timer has
    fired, taken the mutex and asked the wrapper for its data. *)
Definition reader_at_read : list Sched :=
  [Spawn (OnOdom (odom 7 42)); Step 0; Step 0; Step 0; Step 0; Step 0;
   Spawn OnTraversabilityTimer; Step 1; Step 1].

(** A second odometry message is half handled (timestamp written,
    transform not yet) when an RGB-D pair is tracked. *)
Definition track_during_write : list Sched :=
  [Spawn (OnOdom (odom 7 42)); Step 0; Step 0; Step 0; Step 0; Step 0;
   Spawn (OnOdom (odom 9 43)); Step 1; Step 1;
   Spawn (OnRGBD 5%nat 5%nat); Step 2; Step 2].

Definition reader_config : Config :=
  Eval vm_compute in
    default (Config_init 0%nat)
            (sched_run viz reader_at_read (Config_init 0%nat)).

Definition track_config : Config :=
  Eval vm_compute in
    default (Config_init 0%nat)
            (sched_run viz track_during_write (Config_init 0%nat)).

(** A pair of frames is tracked, then the map-data timer fires and
    publishes. *)
Definition publish_after_track : list Sched :=
  [Spawn (OnRGBD 5%nat 5%nat); Step 0; Step 0; Step 0; Step 0; Step 0;
   Spawn OnMapDataTimer; Step 1; Step 1; Step 1; Step 1].

Definition published_config : Config :=
  Eval vm_compute in
    default (Config_init 0%nat)
            (sched_run viz publish_after_track (Config_init 0%nat)).

(** Sensor messages as they might arrive. *)
Definition arrivals : list Invocation :=
  [OnImu 3%nat; OnOdom (odom 7 42); OnRGBD 5%nat 5%nat; OnImu 4%nat;
   OnLidar (mkPointCloud2 (mkHeader (mkTime 8 0) "velodyne") [1; 2]);
   OnRGBD 6%nat 7%nat; OnOdom (odom 9 43); OnMapDataTimer].

(** An image pair is tracked and [tfMapOdom_] read; a second odometry
    message is handled in full; then the transform read is broadcast. *)
Definition write_between_read_and_send : list Sched :=
  [Spawn (OnOdom (odom 7 42)); Step 0; Step 0; Step 0; Step 0; Step 0;
   Spawn (OnRGBD 5%nat 5%nat); Step 1; Step 1; Step 1;
   Spawn (OnOdom (odom 9 43)); Step 2; Step 2; Step 2; Step 2; Step 2;
   Step 1].

Definition stale_config : Config :=
  Eval vm_compute in
    default (Config_init 0%nat)
            (sched_run viz write_between_read_and_send (Config_init 0%nat)).
End Stub.

(** * Properties *)

Section Sequential.
Context {P : Payloads} {I : ORBSLAM3Interface}.
Implicit Types (cfg : Params) (w : World) (tid : nat).

(** *** What each callback does when run alone *)

Lemma run_ImuCallback tid m w :
  run tid (ImuCallback m) w =
    Some (tt, with_engine (handleIMU m (engine w)) w,
          [mkEvent tid (mutex w) (RCLCPP_LOG DEBUG "ImuCallback") tt;
           mkEvent tid (mutex w) (call_handleIMU m) tt]).
Proof. reflexivity. Qed.

Lemma run_LidarCallback tid m w :
  run tid (LidarCallback m) w =
    Some (tt, with_engine (handleLidarPCL (stamp (pc_header m)) m (engine w)) w,
          [mkEvent tid (mutex w)
             (call_handleLidarPCL (stamp (pc_header m)) m) tt]).
Proof. reflexivity. Qed.

Lemma run_OdomCallback tid m w :
  mutex w = None ->
  let t := stamp (odom_header m) in
  let r := getMapToOdomTF m (tfMapOdom_ (node w)) (engine w) in
  run tid (OdomCallback m) w =
    Some (tt,
          mkWorld (mkNode t (fst r) (isTracked_ (node w))) (snd r) None,
          [mkEvent tid None lock_latestTimeMutex tt;
           mkEvent tid (Some tid) (set_latestTime t) tt;
           mkEvent tid (Some tid) (RCLCPP_LOG DEBUG "OdomCallback") tt;
           mkEvent tid (Some tid) (call_getMapToOdomTF m) (fst r);
           mkEvent tid (Some tid) unlock_latestTimeMutex tt]).
Proof.
  intros Hm. cbn. rewrite Hm. cbn. rewrite Nat.eqb_refl. reflexivity.
Qed.

Lemma run_RGBDCallback cfg tid rgb d w :
  let r := trackRGBDi rgb d (engine w) in
  let n2 := with_isTracked true (node w) in
  let q := getCurrentMapPoints PointCloud2_default (snd r) in
  let e1 := mkEvent tid (mutex w) (call_trackRGBDi rgb d) (fst r) in
  let e2 := mkEvent tid (mutex w) (set_isTracked true) tt in
  let e3 := mkEvent tid (mutex w) get_tfMapOdom (tfMapOdom_ (node w)) in
  let e4 := mkEvent tid (mutex w)
              (tfBroadcaster_sendTransform (tfMapOdom_ (node w))) tt in
  let e5 := mkEvent tid (mutex w)
              (call_getCurrentMapPoints PointCloud2_default) (fst q) in
  run tid (RGBDCallback cfg rgb d) w =
    if fst (fst r) then
      if rosViz_ cfg
      then Some (tt, mkWorld n2 (snd q) (mutex w), [e1; e2; e3; e4; e5])
      else Some (tt, mkWorld n2 (snd r) (mutex w), [e1; e2; e3; e4])
    else Some (tt, with_engine (snd r) w, [e1]).
Proof.
  cbn. destruct (trackRGBDi rgb d (engine w)) as [[[] T] s]; cbn;
    [destruct (rosViz_ cfg)|]; reflexivity.
Qed.

Lemma run_publishTraversabilityData cfg tid w :
  mutex w = None ->
  let r := getTraversabilityData (engine w) in
  let t := latestTime_ (node w) in
  let g := place_and_stamp cfg t (fst (fst r)) in
  run tid (publishTraversabilityData cfg) w =
    Some (tt, mkWorld (node w) (snd r) None,
          [mkEvent tid None lock_latestTimeMutex tt;
           mkEvent tid (Some tid) call_getTraversabilityData (fst r);
           mkEvent tid (Some tid) get_latestTime t;
           mkEvent tid (Some tid) (gridmapPub_publish g) tt;
           mkEvent tid (Some tid) (traversabilityPub_publish (snd (fst r))) tt;
           mkEvent tid (Some tid) unlock_latestTimeMutex tt]).
Proof.
  intros Hm. cbn. rewrite Hm. cbn. rewrite Nat.eqb_refl. reflexivity.
Qed.

Lemma run_publishMapData tid w :
  let r := mapDataToMsg MapData_default true false KeyFrameIds_default
                        (engine w) in
  run tid publishMapData w =
    if isTracked_ (node w) then
      Some (tt, with_engine (snd r) w,
            [mkEvent tid (mutex w) get_isTracked true;
             mkEvent tid (mutex w) (RCLCPP_LOG INFO "Publishing map data") tt;
             mkEvent tid (mutex w)
               (call_mapDataToMsg MapData_default true false
                                  KeyFrameIds_default) (fst r);
             mkEvent tid (mutex w) (mapDataPub_publish (fst r)) tt])
    else Some (tt, w, [mkEvent tid (mutex w) get_isTracked false]).
Proof.
  cbn. destruct w as [[t tf []] s m]; reflexivity.
Qed.

Lemma run_getMapServer tid request w :
  let r := mapDataToMsg MapData_default false (tracked_points request)
                        (kf_id_for_landmarks request) (engine w) in
  run tid (getMapServer request) w =
    Some (mkGetMapResponse (fst r), with_engine (snd r) w,
          [mkEvent tid (mutex w)
             (RCLCPP_LOG INFO "GetMap2 service called.") tt;
           mkEvent tid (mutex w)
             (call_mapDataToMsg MapData_default false (tracked_points request)
                                (kf_id_for_landmarks request)) (fst r)]).
Proof. reflexivity. Qed.

Lemma run_bind {A B : Type} tid (p : Prog A) (f : A -> Prog B) w :
  run tid (p ≫= f) w =
    match run tid p w with
    | Some (a, w1, evs1) =>
        match run tid (f a) w1 with
        | Some (b, w2, evs2) => Some (b, w2, evs1 ++ evs2)
        | None => None
        end
    | None => None
    end.
Proof.
  revert w. induction p as [r|a k IH]; intros w; cbn.
  - destruct (run tid (f r) w) as [[[b w2] evs2]|]; reflexivity.
  - destruct (exec tid a w) as [[x w1]|]; [|reflexivity].
    change (bind (k x) f) with (k x ≫= f). rewrite IH.
    destruct (run tid (k x) w1) as [[[a' w2] evs]|]; [|reflexivity].
    destruct (run tid (f a') w2) as [[[b w3] evs3]|]; reflexivity.
Qed.

Lemma run_dispatch_total cfg tid inv w :
  mutex w = None ->
  exists w' evs,
    run tid (dispatch cfg inv) w = Some (tt, w', evs) /\ mutex w' = None.
Proof.
  intros Hm. destruct inv as [m|m|rgb d|m| | |request]; cbn [dispatch].
  - rewrite run_ImuCallback. eauto.
  - rewrite run_OdomCallback by done. eauto.
  - rewrite run_RGBDCallback.
    destruct (fst (fst (trackRGBDi rgb d (engine w)))), (rosViz_ cfg); eauto.
  - rewrite run_LidarCallback. eauto.
  - rewrite run_publishTraversabilityData by done. eauto.
  - rewrite run_publishMapData. destruct (isTracked_ (node w)); eauto.
  - rewrite run_bind, run_getMapServer. cbn. eauto.
Qed.

Lemma spin_total cfg tid invs w :
  mutex w = None ->
  exists w' evs, spin cfg tid invs w = Some (w', evs) /\ mutex w' = None.
Proof.
  revert w. induction invs as [|inv invs IH]; intros w Hm; cbn.
  - eauto.
  - destruct (run_dispatch_total cfg tid inv w Hm) as (w1 & evs1 & -> & Hm1).
    destruct (IH w1 Hm1) as (w2 & evs2 & -> & Hm2). eauto.
Qed.

(** The flag after one callback run alone. *)
Lemma run_dispatch_isTracked cfg tid inv w w' evs :
  run tid (dispatch cfg inv) w = Some (tt, w', evs) ->
  isTracked_ (node w') = isTracked_ (node w) || successful_track inv w.
Proof.
  destruct inv as [m|m|rgb d|m| | |request]; cbn [dispatch successful_track].
  - rewrite run_ImuCallback. intros [= <- _]. cbn. by rewrite orb_false_r.
  - cbn. destruct (mutex w); [done|]. cbn. rewrite Nat.eqb_refl.
    intros [= <- _]. cbn. by rewrite orb_false_r.
  - rewrite run_RGBDCallback.
    destruct (fst (fst (trackRGBDi rgb d (engine w)))), (rosViz_ cfg);
      intros [= <- _]; cbn; by rewrite ?orb_true_r, ?orb_false_r.
  - rewrite run_LidarCallback. intros [= <- _]. cbn. by rewrite orb_false_r.
  - cbn. destruct (mutex w); [done|]. cbn. rewrite Nat.eqb_refl.
    intros [= <- _]. cbn. by rewrite orb_false_r.
  - rewrite run_publishMapData. destruct (isTracked_ (node w)) eqn:E;
      intros [= <- _]; cbn; by rewrite E.
  - rewrite run_bind, run_getMapServer. cbn. intros [= <- _]. cbn.
    by rewrite orb_false_r.
Qed.

Lemma spin_isTracked_stable cfg tid invs w w' evs :
  spin cfg tid invs w = Some (w', evs) ->
  isTracked_ (node w) = true -> isTracked_ (node w') = true.
Proof.
  revert w evs. induction invs as [|inv invs IH]; intros w evs; cbn.
  - by intros [= <- _].
  - destruct (run tid (dispatch cfg inv) w) as [[[[] w1] evs1]|] eqn:E1; [|done].
    destruct (spin cfg tid invs w1) as [[w2 evs2]|] eqn:E2; [|done].
    intros [= <- _] Ht. eapply IH; [done|].
    rewrite (run_dispatch_isTracked _ _ _ _ _ _ E1), Ht. done.
Qed.

(** [C4] A tick of the map-data timer while the flag is false performs
    no publish at all and asks the wrapper nothing; a tick while it is
    true asks the wrapper once, on that tick, and publishes exactly that
    answer, once, on [mapDataPub_]. *)
Theorem C4_map_data_gated_on_tracking tid w :
  exists w' evs,
    run tid publishMapData w = Some (tt, w', evs) /\
    node w' = node w /\
    filter (fun e => is_publish e = true) evs =
      (if isTracked_ (node w)
       then [mkEvent tid (mutex w)
               (mapDataPub_publish
                  (fst (mapDataToMsg MapData_default true false
                                     KeyFrameIds_default (engine w)))) tt]
       else []) /\
    mapData_msgs evs =
      (if isTracked_ (node w)
       then [fst (mapDataToMsg MapData_default true false
                               KeyFrameIds_default (engine w))]
       else []) /\
    length (map_queries evs) = (if isTracked_ (node w) then 1 else 0)%nat.
Proof.
  rewrite run_publishMapData.
  destruct (isTracked_ (node w)); eexists _, _; (split; [reflexivity|]);
    repeat split; reflexivity.
Qed.

(** [C5] When [trackRGBDi] returns false the RGB-D callback consists of
    that one call: the node's fields (the flag among them) and the mutex
    are as before, nothing is broadcast or published, and the map point
    cloud is not asked for. *)
Theorem C5_failed_track_changes_nothing cfg tid rgb d w :
  fst (fst (trackRGBDi rgb d (engine w))) = false ->
  exists w' evs,
    run tid (RGBDCallback cfg rgb d) w = Some (tt, w', evs) /\
    node w' = node w /\
    mutex w' = mutex w /\
    engine w' = snd (trackRGBDi rgb d (engine w)) /\
    evs = [mkEvent tid (mutex w) (call_trackRGBDi rgb d)
             (fst (trackRGBDi rgb d (engine w)))] /\
    broadcasts evs = [] /\
    filter (fun e => is_publish e = true) evs = [] /\
    pointcloud_queries evs = [].
Proof.
  intros Hfail. rewrite run_RGBDCallback, Hfail.
  eexists _, _. split; [reflexivity|]. repeat split; reflexivity.
Qed.

(** The stored transform after a program is the result of its last
    [getMapToOdomTF] call, or the one it started with. *)
Lemma run_tfMapOdom {A : Type} tid (p : Prog A) w r w' evs :
  run tid p w = Some (r, w', evs) ->
  tfMapOdom_ (node w') =
    default (tfMapOdom_ (node w)) (last (omap tf_written evs)).
Proof.
  revert w evs. induction p as [r0|a k IH]; intros w evs; cbn.
  - by intros [= _ <- <-].
  - destruct (exec tid a w) as [[x w1]|] eqn:Ex; [|done].
    destruct (run tid (k x) w1) as [[[r1 w2] evs1]|] eqn:Er; [|done].
    intros [= -> -> <-]. rewrite (IH _ _ _ Er). cbn [omap list_omap].
    destruct a; cbn in Ex |- *;
      try (destruct (mutex w) as [o|]; [try destruct (Nat.eqb o tid)|]);
      simplify_eq; cbn; try done.
    all: rewrite last_cons; by destruct (last _).
Qed.

Lemma spin_tfMapOdom cfg tid invs w w' evs :
  spin cfg tid invs w = Some (w', evs) ->
  tfMapOdom_ (node w') =
    default (tfMapOdom_ (node w)) (last (omap tf_written evs)).
Proof.
  revert w evs. induction invs as [|inv invs IH]; intros w evs; cbn.
  - by intros [= <- <-].
  - destruct (run tid (dispatch cfg inv) w) as [[[[] w1] evs1]|] eqn:E1; [|done].
    destruct (spin cfg tid invs w1) as [[w2 evs2]|] eqn:E2; [|done].
    intros [= <- <-]. rewrite (IH _ _ E2), (run_tfMapOdom _ _ _ _ _ _ E1).
    rewrite omap_app, last_app. by destruct (last (omap tf_written evs2)).
Qed.

(** Only the odometry callback calls [getMapToOdomTF]. *)
Lemma tf_written_only_by_OdomCallback cfg tid inv w w' evs :
  run tid (dispatch cfg inv) w = Some (tt, w', evs) ->
  (forall m, inv <> OnOdom m) ->
  omap tf_written evs = [].
Proof.
  destruct inv as [m|m|rgb d|m| | |request]; cbn [dispatch]; intros Hrun Hne.
  - rewrite run_ImuCallback in Hrun. by simplify_eq.
  - by destruct (Hne m).
  - rewrite run_RGBDCallback in Hrun.
    destruct (fst (fst (trackRGBDi rgb d (engine w)))), (rosViz_ cfg);
      by simplify_eq.
  - rewrite run_LidarCallback in Hrun. by simplify_eq.
  - cbn in Hrun. destruct (mutex w); [done|]. cbn in Hrun.
    rewrite Nat.eqb_refl in Hrun. by simplify_eq.
  - rewrite run_publishMapData in Hrun.
    destruct (isTracked_ (node w)); by simplify_eq.
  - rewrite run_bind, run_getMapServer in Hrun. cbn in Hrun. by simplify_eq.
Qed.

(** [C8] as the code has it.  A successful RGB-D track with
    [ros_visualization] on asks the wrapper for the current map points,
    once, into a fresh message, and hands nothing to [mapPointsPub_];
    with [ros_visualization] off, or when the track fails, the map
    points are not asked for and nothing is handed to [mapPointsPub_]
    either. *)
Theorem C8_map_points_fetched_never_published cfg tid rgb d w :
  exists w' evs,
    run tid (RGBDCallback cfg rgb d) w = Some (tt, w', evs) /\
    mapPoints_msgs evs = [] /\
    pointcloud_queries evs =
      (if fst (fst (trackRGBDi rgb d (engine w))) && rosViz_ cfg
       then [PointCloud2_default] else []).
Proof.
  rewrite run_RGBDCallback.
  destruct (fst (fst (trackRGBDi rgb d (engine w)))), (rosViz_ cfg);
    eexists _, _; (split; [reflexivity|]); split; reflexivity.
Qed.

(** The arguments of the two [mapDataToMsg] calls.  The map-data timer
    passes the flags [true], [false] and the defaulted key-frame
    argument; the service handler passes [false], the request's
    [tracked_points] and the request's [kf_id_for_landmarks], and
    answers with what the call filled in, leaving the node as it was.
    What the two flags ask of the wrapper is fixed by its declaration,
    which is not part of this file's source. *)
Lemma map_query_arguments tid w request :
  (exists w' evs,
     run tid publishMapData w = Some (tt, w', evs) /\
     map_queries evs =
       (if isTracked_ (node w)
        then [mkMapQuery MapData_default true false KeyFrameIds_default]
        else [])) /\
  (exists w' evs response,
     run tid (getMapServer request) w = Some (response, w', evs) /\
     map_queries evs =
       [mkMapQuery MapData_default false (tracked_points request)
                   (kf_id_for_landmarks request)] /\
     data response =
       fst (mapDataToMsg MapData_default false (tracked_points request)
                         (kf_id_for_landmarks request) (engine w)) /\
     node w' = node w /\ mutex w' = mutex w).
Proof.
  split.
  - rewrite run_publishMapData.
    destruct (isTracked_ (node w)); eexists _, _; split; reflexivity.
  - rewrite run_getMapServer. eexists _, _, _. split; [reflexivity|].
    repeat split; reflexivity.
Qed.

(** [C10] as the code has it.  A tick of the traversability timer
    publishes two messages, the occupancy grid and then the grid map,
    both from one [getTraversabilityData] call.  The occupancy grid has
    its origin moved by [robot_x_] and [robot_y_] and its header set to
    the stored time and [global_frame_]; nothing else in it changes.
    The grid map is published as the wrapper returned it. *)
Theorem C10_traversability_tick cfg tid w :
  mutex w = None ->
  exists w' evs g,
    let r := fst (getTraversabilityData (engine w)) in
    let p := position (origin (info (fst r))) in
    run tid (publishTraversabilityData cfg) w = Some (tt, w', evs) /\
    filter (fun e => is_publish e = true) evs =
      [mkEvent tid (Some tid) (gridmapPub_publish g) tt;
       mkEvent tid (Some tid) (traversabilityPub_publish (snd r)) tt] /\
    gridmap_msgs evs = [g] /\
    traversability_msgs evs = [snd r] /\
    og_header g = mkHeader (latestTime_ (node w)) (global_frame_ cfg) /\
    position (origin (info g)) =
      mkPoint (pt_x p + robot_x_ cfg)%float (pt_y p + robot_y_ cfg)%float
              (pt_z p) /\
    orientation (origin (info g)) = orientation (origin (info (fst r))) /\
    map_load_time (info g) = map_load_time (info (fst r)) /\
    resolution (info g) = resolution (info (fst r)) /\
    width (info g) = width (info (fst r)) /\
    height (info g) = height (info (fst r)) /\
    og_data g = og_data (fst r).
Proof.
  intros Hm. rewrite run_publishTraversabilityData by done.
  eexists _, _, _. cbn zeta. split; [reflexivity|].
  repeat split; reflexivity.
Qed.

(** [C2] as the code has it.  [OdomCallback] and
    [publishTraversabilityData] take the mutex as their first action and
    release it as their last: the wrapper's [getMapToOdomTF] in the
    former, and the wrapper's [getTraversabilityData], the read of the
    stored time and both publish calls in the latter, run with the mutex
    held.  No other callback touches the mutex. *)
Theorem C2_mutex_held_for_the_whole_body cfg tid w :
  mutex w = None ->
  (forall m, exists w' evs body,
     run tid (OdomCallback m) w = Some (tt, w', evs) /\
     mutex w' = None /\
     critical_section tid evs body /\
     filter (fun e => is_engine_call e = true) body =
       [mkEvent tid (Some tid) (call_getMapToOdomTF m)
          (fst (getMapToOdomTF m (tfMapOdom_ (node w)) (engine w)))]) /\
  (exists w' evs body,
     run tid (publishTraversabilityData cfg) w = Some (tt, w', evs) /\
     mutex w' = None /\
     critical_section tid evs body /\
     body =
       [mkEvent tid (Some tid) call_getTraversabilityData
          (fst (getTraversabilityData (engine w)));
        mkEvent tid (Some tid) get_latestTime (latestTime_ (node w));
        mkEvent tid (Some tid)
          (gridmapPub_publish
             (place_and_stamp cfg (latestTime_ (node w))
                (fst (fst (getTraversabilityData (engine w)))))) tt;
        mkEvent tid (Some tid)
          (traversabilityPub_publish
             (snd (fst (getTraversabilityData (engine w))))) tt]) /\
  (forall inv,
     (forall m, inv <> OnOdom m) -> inv <> OnTraversabilityTimer ->
     exists w' evs,
       run tid (dispatch cfg inv) w = Some (tt, w', evs) /\
       Forall (fun e => is_mutex_op e = false /\ ev_held e = None) evs).
Proof.
  intros Hm. split; [|split].
  - intros m. rewrite run_OdomCallback by done.
    eexists _, _, [_; _; _]. split; [reflexivity|]. split; [reflexivity|].
    split; [split; [reflexivity|repeat constructor]|reflexivity].
  - rewrite run_publishTraversabilityData by done.
    eexists _, _, [_; _; _; _]. split; [reflexivity|].
    split; [reflexivity|].
    split; [split; [reflexivity|repeat constructor]|reflexivity].
  - intros inv Hodom Htrav.
    destruct inv as [m|m|rgb d|m| | |request]; cbn [dispatch].
    + rewrite run_ImuCallback. eexists _, _. split; [reflexivity|].
      rewrite Hm. repeat constructor.
    + by destruct (Hodom m).
    + rewrite run_RGBDCallback.
      destruct (fst (fst (trackRGBDi rgb d (engine w)))), (rosViz_ cfg);
        eexists _, _; (split; [reflexivity|]); rewrite Hm;
        repeat constructor.
    + rewrite run_LidarCallback. eexists _, _. split; [reflexivity|].
      rewrite Hm. repeat constructor.
    + done.
    + rewrite run_publishMapData. destruct (isTracked_ (node w));
        eexists _, _; (split; [reflexivity|]); rewrite Hm;
        repeat constructor.
    + rewrite run_bind, run_getMapServer. cbn. eexists _, _.
      split; [reflexivity|]. rewrite Hm. repeat constructor.
Qed.
End Sequential.

Section Concurrent.
Context {P : Payloads} {I : ORBSLAM3Interface}.
Implicit Types (cfg : Params) (w : World) (c : Config) (i : nat).

(** *** Every callback keeps the locking discipline *)

Local Ltac walk :=
  repeat first
    [ progress cbn
    | progress intros
    | split
    | match goal with |- context [if ?b then _ else _] => destruct b end ];
  try done.

Lemma dispatch_follows cfg inv : follows Outside (dispatch cfg inv).
Proof. destruct inv; walk. Qed.

Lemma dispatch_never_clears cfg inv : never_clears (dispatch cfg inv).
Proof. destruct inv; walk. Qed.

(** *** Neutral actions *)

Lemma exec_neutral i a w x w1 :
  neutral a = true -> exec i a w = Some (x, w1) ->
  mutex w1 = mutex w /\ cell w1 = cell w.
Proof. destruct a; try done; cbn; intros _ [= _ <-]; done. Qed.

Lemma trace_neutral i h a x tr :
  neutral a = true ->
  latest_write cell_init (mkEvent i h a x :: tr) = latest_write cell_init tr /\
  forall j, pending_time (mkEvent i h a x :: tr) j = pending_time tr j.
Proof. destruct a; done. Qed.

Lemma next_phase_neutral ph a ph' :
  neutral a = true -> next_phase ph a = Some ph' -> ph' = ph.
Proof. destruct a, ph; cbn; congruence. Qed.

Lemma phase_ok_ext c c' j ph :
  mutex (world c') = mutex (world c) ->
  cell (world c') = cell (world c) ->
  latest_write cell_init (trace c') = latest_write cell_init (trace c) ->
  pending_time (trace c') j = pending_time (trace c) j ->
  phase_ok c j ph -> phase_ok c' j ph.
Proof.
  intros Hm Hc Hl Hp. destruct ph; cbn; rewrite Hm, ?Hl, ?Hp, ?Hc; [done..|].
  by injection Hc as _ ->.
Qed.

(** *** The invariant holds in every reachable configuration *)

Lemma Inv_init s : Inv (Config_init s).
Proof.
  split; [|split]; cbn; [|done..].
  intros i p Hi. by rewrite lookup_nil in Hi.
Qed.

Lemma other_outside c j ph :
  phase_ok c j ph -> mutex (world c) <> Some j -> ph = Outside.
Proof. destruct ph; cbn; [done|intros [? _] ?; done..]. Qed.

Lemma Inv_spawn cfg inv c :
  Inv c -> Inv (mkConfig (pool c ++ [dispatch cfg inv]) (world c) (trace c)).
Proof.
  intros (Hth & Hfree & Hown). split; [|split]; cbn; [|done|].
  - intros i p Hi. apply lookup_app_Some in Hi as [Hi|[Hlen Hi]].
    + destruct (Hth i p Hi) as (Hnc & ph & Hf & Hok). split; [done|].
      exists ph. split; [done|]. destruct ph; exact Hok.
    + apply list_lookup_singleton_Some in Hi as [Hz <-].
      split; [apply dispatch_never_clears|].
      exists Outside. split; [apply dispatch_follows|].
      cbn. intros Hm. apply Hown in Hm. lia.
  - intros i Hm. rewrite length_app. apply Hown in Hm. lia.
Qed.

Lemma Inv_thread_step c i a k x w1 :
  Inv c ->
  pool c !! i = Some (Vis a k) ->
  exec i a (world c) = Some (x, w1) ->
  Inv (mkConfig (<[i := k x]> (pool c)) w1
                (mkEvent i (mutex (world c)) a x :: trace c)).
Proof.
  intros (Hth & Hfree & Hown) Hi Hex.
  destruct (Hth i _ Hi) as ([Hne Hnc] & ph & Hf & Hok). cbn in Hf.
  destruct (next_phase ph a) as [ph'|] eqn:Hph; [|done].
  assert (Hlen : (i < length (pool c))%nat) by (eapply lookup_lt_Some; eauto).
  assert (Hothers : forall j p, i <> j -> pool c !! j = Some p ->
            mutex (world c) <> Some j ->
            mutex w1 <> Some j ->
            never_clears p /\
            exists phj, follows phj p /\
              phase_ok (mkConfig (<[i := k x]> (pool c)) w1
                          (mkEvent i (mutex (world c)) a x :: trace c)) j phj).
  { intros j p Hij Hj Hm Hm1. destruct (Hth j p Hj) as (? & phj & ? & Hokj).
    split; [done|]. exists phj. split; [done|].
    by rewrite (other_outside _ _ _ Hokj Hm). }
  destruct (neutral a) eqn:Hn.
  - destruct (exec_neutral _ _ _ _ _ Hn Hex) as [Hm Hc].
    destruct (trace_neutral i (mutex (world c)) a x (trace c) Hn) as [Hl Hp].
    apply next_phase_neutral in Hph as ->; [|done].
    split; [|split]; cbn.
    + intros j p Hj. destruct (decide (i = j)) as [<-|Hij].
      * rewrite list_lookup_insert_eq in Hj by done. injection Hj as <-.
        split; [done|]. exists ph. split; [done|].
        eapply phase_ok_ext; [exact Hm|exact Hc|exact Hl|apply Hp|exact Hok].
      * rewrite list_lookup_insert_ne in Hj by done.
        destruct (Hth j p Hj) as (? & phj & ? & ?). split; [done|].
        exists phj. split; [done|].
        eapply phase_ok_ext; [exact Hm|exact Hc|exact Hl|apply Hp|eassumption].
    + rewrite Hm, Hc. intros Hnone. rewrite <- (Hfree Hnone). exact Hl.
    + intros j. rewrite Hm, length_insert. apply Hown.
  - destruct a; try done; destruct ph; try done; cbn in Hph, Hex, x, k;
      simplify_eq.
    + (* lock *)
      destruct (mutex (world c)) eqn:Hm; [done|]. simplify_eq.
      split; [|split]; cbn; [|done|].
      * intros j p Hj. destruct (decide (i = j)) as [<-|Hij].
        -- rewrite list_lookup_insert_eq in Hj by done. injection Hj as <-.
           split; [done|]. exists Clean. split; [done|]. cbn. by split; [|apply Hfree].
        -- rewrite list_lookup_insert_ne in Hj by done.
           eapply Hothers; [done..| |]; cbn; congruence.
      * intros j [= <-]. by rewrite length_insert.
    + (* unlock *)
      destruct Hok as [Hm Hl]. rewrite Hm in Hex. cbn in Hex.
      rewrite Nat.eqb_refl in Hex. simplify_eq.
      split; [|split]; cbn; [| |done].
      * intros j p Hj. destruct (decide (i = j)) as [<-|Hij].
        -- rewrite list_lookup_insert_eq in Hj by done. injection Hj as <-.
           split; [done|]. exists Outside. split; [done|]. done.
        -- rewrite list_lookup_insert_ne in Hj by done.
           eapply Hothers; [done..| |]; cbn; congruence.
      * done.
    + (* the timestamp is written *)
      destruct Hok as [Hm Hl].
      split; [|split]; cbn; [|congruence|].
      * intros j p Hj. destruct (decide (i = j)) as [<-|Hij].
        -- rewrite list_lookup_insert_eq in Hj by done. injection Hj as <-.
           split; [done|]. exists Dirty. split; [done|]. cbn.
           by rewrite Nat.eqb_refl.
        -- rewrite list_lookup_insert_ne in Hj by done.
           eapply Hothers; [done..| |]; cbn; congruence.
      * intros j Hj. rewrite length_insert. by apply Hown.
    + (* the transform is written *)
      destruct Hok as [Hm Hp].
      split; [|split]; cbn; [|congruence|].
      * intros j p Hj. destruct (decide (i = j)) as [<-|Hij].
        -- rewrite list_lookup_insert_eq in Hj by done. injection Hj as <-.
           split; [done|]. exists Clean. split; [done|]. cbn.
           by rewrite Hp.
        -- rewrite list_lookup_insert_ne in Hj by done.
           eapply Hothers; [done..| |]; cbn; congruence.
      * intros j Hj. rewrite length_insert. by apply Hown.
Qed.

Lemma Inv_step cfg s c c' :
  Inv c -> sched_step cfg s c = Some c' -> Inv c'.
Proof.
  intros HI. destruct s as [inv|i|s]; cbn.
  - intros [= <-]. by apply Inv_spawn.
  - destruct (pool c !! i) as [[r|a k]|] eqn:Hi; [done| |done].
    destruct (exec i a (world c)) as [[x w1]|] eqn:Hex; [|done].
    intros [= <-]. by apply Inv_thread_step.
  - intros [= <-]. destruct HI as (Hth & Hfree & Hown).
    split; [|split]; cbn; [|done..].
    intros i p Hi. destruct (Hth i p Hi) as (? & ph & ? & Hok).
    split; [done|]. exists ph. split; [done|]. destruct ph; exact Hok.
Qed.

Lemma Inv_run cfg ss c c' :
  Inv c -> sched_run cfg ss c = Some c' -> Inv c'.
Proof.
  revert c. induction ss as [|s ss IH]; intros c HI; cbn.
  - by intros [= <-].
  - destruct (sched_step cfg s c) as [c1|] eqn:Hs; [|done].
    intros Hrun. eapply IH; [|done]. by eapply Inv_step.
Qed.

(** *** The flag under a multi-threaded executor *)

Lemma exec_isTracked i a w x w1 :
  a <> set_isTracked false ->
  exec i a w = Some (x, w1) ->
  isTracked_ (node w) = true -> isTracked_ (node w1) = true.
Proof.
  intros Hne Hex Ht. destruct a; cbn in Hex;
    try (destruct (mutex w) as [o|]; [try destruct (Nat.eqb o i)|]);
    simplify_eq; cbn; try done.
  all: by destruct b.
Qed.

Lemma sched_step_isTracked cfg s c c' :
  Inv c -> sched_step cfg s c = Some c' ->
  isTracked_ (node (world c)) = true -> isTracked_ (node (world c')) = true.
Proof.
  intros (Hth & _ & _). destruct s as [inv|i|s]; cbn.
  - by intros [= <-].
  - destruct (pool c !! i) as [[r|a k]|] eqn:Hi; [done| |done].
    destruct (exec i a (world c)) as [[x w1]|] eqn:Hex; [|done].
    intros [= <-]. cbn. destruct (Hth i _ Hi) as ([Hne _] & _).
    by eapply exec_isTracked.
  - by intros [= <-].
Qed.

Lemma sched_run_isTracked cfg ss c c' :
  Inv c -> sched_run cfg ss c = Some c' ->
  isTracked_ (node (world c)) = true -> isTracked_ (node (world c')) = true.
Proof.
  revert c. induction ss as [|s ss IH]; intros c HI; cbn.
  - by intros [= <-].
  - destruct (sched_step cfg s c) as [c1|] eqn:Hs; [|done].
    intros Hrun Ht. eapply IH; [by eapply Inv_step|done|].
    by eapply sched_step_isTracked.
Qed.

(** *** Broadcasts under a multi-threaded executor *)

Lemma dispatch_sends_only cfg inv : sends_only (fun _ => False) (dispatch cfg inv).
Proof.
  destruct inv; repeat first
    [ progress cbn
    | progress intros
    | split
    | match goal with |- context [if ?b then _ else _] => destruct b end ];
    try done.
  all: simplify_eq; eauto.
Qed.

Lemma stored_values_cons e tr v :
  v ∈ stored_values tr -> v ∈ stored_values (e :: tr).
Proof.
  unfold stored_values. cbn. rewrite !elem_of_cons.
  destruct (tf_written e); [rewrite elem_of_cons|]; tauto.
Qed.

Lemma stored_values_current tr :
  default TransformStamped_default (head (omap tf_written tr)) ∈ stored_values tr.
Proof.
  unfold stored_values. destruct (omap tf_written tr); cbn;
    rewrite !elem_of_cons; tauto.
Qed.

Lemma exec_tfMapOdom i a w x w1 h :
  exec i a w = Some (x, w1) ->
  tfMapOdom_ (node w1) =
    default (tfMapOdom_ (node w)) (tf_written (mkEvent i h a x)).
Proof.
  destruct a; cbn;
    try (destruct (mutex w) as [o|]; [try destruct (Nat.eqb o i)|]);
    try done; by intros [= <- <-].
Qed.

Lemma InvTf_init s : InvTf (Config_init s).
Proof.
  split; [done|]. split; [|done]. intros i p Hi. cbn in Hi.
  by rewrite lookup_nil in Hi.
Qed.

Lemma InvTf_step cfg s c c' :
  InvTf c -> sched_step cfg s c = Some c' -> InvTf c'.
Proof.
  intros (Htf & Hth & Hbs). destruct s as [inv|i|s]; cbn.
  - intros [= <-]. split; [done|]. split; [|done]. cbn.
    intros i p Hi. apply lookup_app_Some in Hi as [Hi|[_ Hi]]; [by eauto|].
    apply list_lookup_singleton_Some in Hi as [_ <-].
    exists (fun _ => False). split; [apply dispatch_sends_only|done].
  - destruct (pool c !! i) as [[r|a k]|] eqn:Hi; [done| |done].
    destruct (exec i a (world c)) as [[x w1]|] eqn:Hex; [|done].
    intros [= <-]. destruct (Hth i _ Hi) as (allowed & [Hsend Hk] & Hal).
    split; [|split]; cbn [world trace pool].
    + rewrite (exec_tfMapOdom _ _ _ _ _ (mutex (world c)) Hex), Htf.
      cbn [omap list_omap]. by destruct (tf_written _).
    + intros j p Hj. destruct (decide (i = j)) as [<-|Hij].
      * rewrite list_lookup_insert_eq in Hj by (by eapply lookup_lt_Some).
        injection Hj as <-. eexists. split; [apply Hk|]. cbn beta.
        intros v [Hv|Hv]; apply stored_values_cons; [by apply Hal|].
        destruct a; try done. cbn in Hv, Hex. simplify_eq.
        rewrite Htf. apply stored_values_current.
      * rewrite list_lookup_insert_ne in Hj by done.
        destruct (Hth j p Hj) as (allowedj & ? & Halj).
        exists allowedj. split; [done|].
        intros v Hv. by apply stored_values_cons, Halj.
    + cbn [broadcasts_stored]. split; [|done]. intros tf Hsent.
      destruct a; try done. cbn in Hsent. simplify_eq. by apply Hal, Hsend.
  - intros [= <-]. split; [done|]. split; [|done]. cbn. by eauto.
Qed.

Lemma InvTf_run cfg ss c c' :
  InvTf c -> sched_run cfg ss c = Some c' -> InvTf c'.
Proof.
  revert c. induction ss as [|s ss IH]; intros c HI; cbn.
  - by intros [= <-].
  - destruct (sched_step cfg s c) as [c1|] eqn:Hs; [|done].
    intros Hrun. eapply IH; [|done]. by eapply InvTf_step.
Qed.

(** [C3] The tracking flag starts false.  A callback run changes it
    only by a successful RGB-D track, which sets it to true.  Once true
    it is true after every further sequence of callbacks and timer
    ticks, whether they run one after the other or interleaved. *)
Theorem C3_tracking_flag_set_once cfg tid :
  isTracked_ Node_init = false /\
  (forall inv w, mutex w = None ->
     exists w' evs,
       run tid (dispatch cfg inv) w = Some (tt, w', evs) /\
       isTracked_ (node w') = isTracked_ (node w) || successful_track inv w) /\
  (forall invs w, mutex w = None -> isTracked_ (node w) = true ->
     exists w' evs,
       spin cfg tid invs w = Some (w', evs) /\ isTracked_ (node w') = true) /\
  (forall s ss c ss' c',
     sched_run cfg ss (Config_init s) = Some c ->
     sched_run cfg ss' c = Some c' ->
     isTracked_ (node (world c)) = true ->
     isTracked_ (node (world c')) = true).
Proof.
  split; [reflexivity|]. split; [|split].
  - intros inv w Hm.
    destruct (run_dispatch_total cfg tid inv w Hm) as (w' & evs & Hrun & _).
    exists w', evs. split; [done|]. by eapply run_dispatch_isTracked.
  - intros invs w Hm Ht.
    destruct (spin_total cfg tid invs w Hm) as (w' & evs & Hspin & _).
    exists w', evs. split; [done|]. by eapply spin_isTracked_stable.
  - intros s ss c ss' c' Hrun Hrun'.
    eapply sched_run_isTracked; [|done].
    eapply Inv_run; [apply Inv_init|done].
Qed.
End Concurrent.

Section OnTheStub.

Import Stub.

Lemma reader_config_reached :
  sched_run viz reader_at_read (Config_init 0%nat) = Some reader_config.
Proof. vm_compute. reflexivity. Defined.

Lemma track_config_reached :
  sched_run viz track_during_write (Config_init 0%nat) = Some track_config.
Proof. vm_compute. reflexivity. Qed.

(** The RGB-D callback reads [tfMapOdom_] without the mutex: at
    [track_during_write] it is about to read it while the cell holds the
    timestamp of the second message and the transform of the first. *)
Example unlocked_read_inside_a_write :
  exists k,
    sched_run viz track_during_write (Config_init 0%nat) = Some track_config /\
    pool track_config !! 2%nat = Some (Vis get_tfMapOdom k) /\
    mutex (world track_config) = Some 1%nat /\
    latest_write cell_init (trace track_config) = None /\
    cell (world track_config) =
      (mkTransformStamped (mkHeader (mkTime 7 0) "map") "odom" 42,
       mkTime 9 0).
Proof.
  eexists. split; [exact track_config_reached|]. repeat split; reflexivity.
Qed.

(** The map-data timer before and after the first successful track. *)
Example publishMapData_before_tracking :
  exists w' evs,
    run 0 publishMapData w1 = Some (tt, w', evs) /\
    w' = w1 /\ mapData_msgs evs = [] /\ map_queries evs = [].
Proof. eexists _, _. repeat split; reflexivity. Qed.

Example publishMapData_after_tracking :
  exists w' evs,
    run 0 publishMapData w2 = Some (tt, w', evs) /\
    mapData_msgs evs = [[1; 0]] /\
    map_queries evs = [mkMapQuery [] true false []].
Proof. eexists _, _. repeat split; reflexivity. Qed.

(** A successful track with the declared defaults ([visualization] on,
    [ros_visualization] off): one broadcast, and the map points are not
    asked for. *)
Example RGBDCallback_with_defaults :
  exists w' evs,
    run 0 (RGBDCallback Params_default 5%nat 5%nat) w1 = Some (tt, w', evs) /\
    isTracked_ (node w') = true /\
    broadcasts evs = [tfMapOdom_ (node w1)] /\
    pointcloud_queries evs = [] /\
    mapPoints_msgs evs = [].
Proof. eexists _, _. repeat split; reflexivity. Qed.

(** The service handler with a request for key frames 3 and 7, tracked
    points only. *)
Example getMapServer_scoped :
  exists w' evs,
    run 0 (getMapServer (mkGetMapRequest true [3; 7])) w2
      = Some (mkGetMapResponse [0; 1; 3; 7], w', evs) /\
    map_queries evs = [mkMapQuery [] false true [3; 7]] /\
    node w' = node w2.
Proof. eexists _, _. repeat split; reflexivity. Qed.

(** [C2] fails on the code: on a tick of the traversability timer the
    wrapper is queried and a message is published while the ticking
    thread holds the mutex. *)
Lemma C2_counterexample :
  exists w' evs e1 e2,
    run 0 (publishTraversabilityData viz) w1 = Some (tt, w', evs) /\
    evs !! 1%nat = Some e1 /\
    ev_act e1 = call_getTraversabilityData /\
    is_engine_call e1 = true /\ ev_held e1 = Some 0%nat /\
    evs !! 3%nat = Some e2 /\
    is_publish e2 = true /\ ev_held e2 = Some 0%nat.
Proof.
  eexists _, _, _, _. split; [reflexivity|]. split; [reflexivity|].
  split; [reflexivity|]. split; [reflexivity|]. split; [reflexivity|].
  split; [reflexivity|]. split; reflexivity.
Qed.

(** [C2] as amended, on the stub. *)
Lemma C2_witness :
  exists w' evs body,
    run 0 (publishTraversabilityData viz) w1 = Some (tt, w', evs) /\
    mutex w' = None /\
    critical_section 0 evs body /\
    length body = 4%nat.
Proof.
  destruct (C2_mutex_held_for_the_whole_body (I:=wrapper) viz 0 w1 eq_refl)
    as (_ & (w' & evs & body & Hrun & Hm & Hcs & Hbody) & _).
  exists w', evs, body. repeat split; try assumption; try apply Hcs.
  rewrite Hbody. reflexivity.
Defined.

(** [C3] on the stub: once tracking has succeeded, a failed track, an
    odometry message and a timer tick later the flag is still true. *)
Lemma C3_witness :
  exists w' evs,
    spin viz 0 [OnRGBD 1%nat 2%nat; OnOdom (odom 8 1); OnMapDataTimer] w2
      = Some (w', evs) /\
    isTracked_ (node w') = true.
Proof.
  destruct (C3_tracking_flag_set_once (I:=wrapper) viz 0%nat) as (_ & _ & Hspin & _).
  exact (Hspin [OnRGBD 1%nat 2%nat; OnOdom (odom 8 1); OnMapDataTimer] w2
               eq_refl eq_refl).
Defined.

(** [C5] at a pair of frames on which tracking fails. *)
Lemma C5_witness :
  exists w' evs,
    run 0 (RGBDCallback viz 1%nat 2%nat) w1 = Some (tt, w', evs) /\
    node w' = node w1 /\ mutex w' = mutex w1 /\
    broadcasts evs = [] /\ pointcloud_queries evs = [].
Proof.
  destruct (C5_failed_track_changes_nothing (I:=wrapper) viz 0 1%nat 2%nat w1 eq_refl)
    as (w' & evs & Hrun & Hn & Hm & _ & _ & Hb & _ & Hq).
  exists w', evs. repeat split; assumption.
Defined.

(** [C8] fails on the code: a successful track with [ros_visualization]
    on hands nothing to [mapPointsPub_]; the only output of the
    callback is the broadcast transform. *)
Lemma C8_counterexample :
  exists w' evs,
    fst (fst (trackRGBDi 5%nat 5%nat (engine w1))) = true /\
    bUseViewer viz = true /\
    rosViz_ viz = true /\
    run 0 (RGBDCallback viz 5%nat 5%nat) w1 = Some (tt, w', evs) /\
    mapPoints_msgs evs = [] /\
    ev_act <$> filter (fun e => is_publish e = true) evs =
      [tfBroadcaster_sendTransform (tfMapOdom_ (node w1))].
Proof.
  eexists _, _. split; [reflexivity|]. split; [reflexivity|].
  split; [reflexivity|]. split; [reflexivity|]. split; reflexivity.
Qed.

(** The flags of the two [mapDataToMsg] calls on the stub: [true] then
    [false] from the timer; [false] then the request's [tracked_points],
    here [false], from the handler. *)
Example map_query_flags_on_the_stub :
  exists wP evsP wS evsS response,
    run 0 publishMapData w2 = Some (tt, wP, evsP) /\
    run 0 (getMapServer (mkGetMapRequest false [])) w2
      = Some (response, wS, evsS) /\
    mq_flag1 <$> map_queries evsP = [true] /\
    mq_flag1 <$> map_queries evsS = [false] /\
    mq_flag2 <$> map_queries evsS = [false].
Proof.
  eexists _, _, _, _, _. split; [reflexivity|]. split; [reflexivity|].
  split; [reflexivity|]. split; reflexivity.
Qed.

(** [C10] fails on the code: the grid map is published with the header
    the wrapper gave it, not with the stored time and the global
    frame. *)
Lemma C10_counterexample :
  exists w' evs gm,
    run 0 (publishTraversabilityData viz) w1 = Some (tt, w', evs) /\
    traversability_msgs evs = [gm] /\
    gm_header gm = mkHeader (mkTime 3 0) "odom" /\
    mkHeader (latestTime_ (node w1)) (global_frame_ viz)
      = mkHeader (mkTime 7 0) "map" /\
    gm_header gm <> mkHeader (latestTime_ (node w1)) (global_frame_ viz).
Proof.
  eexists _, _, _. split; [reflexivity|]. split; [reflexivity|].
  split; [reflexivity|]. split; [reflexivity|]. discriminate.
Qed.

(** [C10] as amended, on the stub: the origin (4, 5) moves to (5, 6). *)
Lemma C10_witness :
  exists w' evs g,
    run 0 (publishTraversabilityData viz) w1 = Some (tt, w', evs) /\
    gridmap_msgs evs = [g] /\
    traversability_msgs evs = [layers] /\
    og_header g = mkHeader (mkTime 7 0) "map" /\
    position (origin (info g)) = mkPoint 5%float 6%float 0%float.
Proof.
  destruct (C10_traversability_tick (I:=wrapper) viz 0 w1 eq_refl)
    as (w' & evs & g & Hrun & _ & Hg & Ht & Hh & Hp & _).
  exists w', evs, g. repeat split; assumption.
Defined.
End OnTheStub.

Section MoreSequential.
Context {P : Payloads} {I : ORBSLAM3Interface}.
Implicit Types (cfg : Params) (w : World) (tid : nat).

(** *** Which callbacks can block *)

(** A callback run alone fails to complete exactly when its body starts
    with the [lock_guard] and the mutex is taken; a callback that
    completes leaves the mutex as it found it. *)
Theorem callbacks_block_only_on_the_mutex cfg tid inv w :
  (run tid (dispatch cfg inv) w = None <->
     takes_lock inv = true /\ mutex w <> None) /\
  (forall w' evs,
     run tid (dispatch cfg inv) w = Some (tt, w', evs) -> mutex w' = mutex w).
Proof.
  destruct inv as [m|m|rgb d|m| | |request]; cbn [dispatch takes_lock].
  - rewrite run_ImuCallback. split; [split; [done|by intros [? _]]|].
    by intros w' evs [= <- _].
  - destruct (mutex w) as [o|] eqn:Hm.
    + cbn. rewrite Hm. split; [split; [done|done]|done].
    + rewrite run_OdomCallback by done. split; [split; [done|by intros [_ ?]]|].
      by intros w' evs [= <- _].
  - rewrite run_RGBDCallback.
    destruct (fst (fst (trackRGBDi rgb d (engine w)))), (rosViz_ cfg);
      (split; [split; [done|by intros [? _]]|]); by intros w' evs [= <- _].
  - rewrite run_LidarCallback. split; [split; [done|by intros [? _]]|].
    by intros w' evs [= <- _].
  - destruct (mutex w) as [o|] eqn:Hm.
    + cbn. rewrite Hm. split; [split; [done|done]|done].
    + rewrite run_publishTraversabilityData by done.
      split; [split; [done|by intros [_ ?]]|]. by intros w' evs [= <- _].
  - rewrite run_publishMapData.
    destruct (isTracked_ (node w));
      (split; [split; [done|by intros [? _]]|]); by intros w' evs [= <- _].
  - rewrite run_bind, run_getMapServer. cbn.
    split; [split; [done|by intros [? _]]|]. by intros w' evs [= <- _].
Qed.

(** *** Sequences of callbacks *)

Lemma spin_app cfg tid invs1 invs2 w :
  spin cfg tid (invs1 ++ invs2) w =
    match spin cfg tid invs1 w with
    | Some (w1, evs1) =>
        match spin cfg tid invs2 w1 with
        | Some (w2, evs2) => Some (w2, evs1 ++ evs2)
        | None => None
        end
    | None => None
    end.
Proof.
  revert w. induction invs1 as [|inv invs1 IH]; intros w; cbn.
  - by destruct (spin cfg tid invs2 w) as [[w2 evs2]|].
  - destruct (run tid (dispatch cfg inv) w) as [[[[] w1] evs1]|]; [|done].
    rewrite IH. destruct (spin cfg tid invs1 w1) as [[w2 evs2]|]; [|done].
    destruct (spin cfg tid invs2 w2) as [[w3 evs3]|]; [|done].
    by rewrite app_assoc.
Qed.

(** The stored time after one callback. *)
Lemma run_dispatch_latestTime cfg tid inv w w' evs :
  run tid (dispatch cfg inv) w = Some (tt, w', evs) ->
  latestTime_ (node w') =
    default (latestTime_ (node w))
            ((fun m => stamp (odom_header m)) <$> odom_of inv).
Proof.
  destruct inv as [m|m|rgb d|m| | |request]; cbn [dispatch odom_of].
  - rewrite run_ImuCallback. by intros [= <- _].
  - cbn. destruct (mutex w); [done|]. cbn. rewrite Nat.eqb_refl.
    by intros [= <- _].
  - rewrite run_RGBDCallback.
    destruct (fst (fst (trackRGBDi rgb d (engine w)))), (rosViz_ cfg);
      by intros [= <- _].
  - rewrite run_LidarCallback. by intros [= <- _].
  - cbn. destruct (mutex w); [done|]. cbn. rewrite Nat.eqb_refl.
    by intros [= <- _].
  - rewrite run_publishMapData. destruct (isTracked_ (node w));
      by intros [= <- _].
  - rewrite run_bind, run_getMapServer. cbn. by intros [= <- _].
Qed.

Lemma spin_latestTime cfg tid invs w w' evs :
  spin cfg tid invs w = Some (w', evs) ->
  latestTime_ (node w') = default (latestTime_ (node w)) (last_odom_stamp invs).
Proof.
  unfold last_odom_stamp.
  revert w evs. induction invs as [|inv invs IH]; intros w evs; cbn.
  - by intros [= <- _].
  - destruct (run tid (dispatch cfg inv) w) as [[[[] w1] evs1]|] eqn:E1; [|done].
    destruct (spin cfg tid invs w1) as [[w2 evs2]|] eqn:E2; [|done].
    intros [= <- _]. rewrite (IH _ _ E2), (run_dispatch_latestTime _ _ _ _ _ _ E1).
    destruct (odom_of inv) as [m|]; cbn; [|done].
    rewrite last_cons. by destruct (last (omap odom_of invs)).
Qed.

(** After any sequence of callbacks the stored time is the stamp of the
    last odometry message of the sequence (the time it started with if
    there was none), and a tick of the traversability timer then
    publishes an occupancy grid with exactly that stamp and the global
    frame. *)
Theorem traversability_stamp_is_last_odometry_stamp cfg tid invs w0 :
  mutex w0 = None ->
  exists w evs w' evs' g,
    spin cfg tid invs w0 = Some (w, evs) /\
    latestTime_ (node w) =
      default (latestTime_ (node w0)) (last_odom_stamp invs) /\
    run tid (publishTraversabilityData cfg) w = Some (tt, w', evs') /\
    gridmap_msgs evs' = [g] /\
    og_header g =
      mkHeader (default (latestTime_ (node w0)) (last_odom_stamp invs))
               (global_frame_ cfg).
Proof.
  intros Hm0. destruct (spin_total cfg tid invs w0 Hm0) as (w & evs & Hspin & Hm).
  exists w, evs. rewrite (run_publishTraversabilityData cfg tid w Hm).
  eexists _, _, _. split; [done|]. split; [by eapply spin_latestTime|].
  split; [reflexivity|]. split; [reflexivity|]. cbn.
  by rewrite (spin_latestTime _ _ _ _ _ _ Hspin).
Qed.

(** The wrapper calls of one callback. *)
Lemma run_dispatch_calls cfg tid inv w w' evs :
  run tid (dispatch cfg inv) w = Some (tt, w', evs) ->
  omap imu_call evs = option_list (imu_of inv) /\
  omap odom_call evs = option_list (odom_of inv) /\
  omap rgbd_call evs = option_list (rgbd_of inv) /\
  omap lidar_call evs = option_list (lidar_of inv) /\
  length (broadcasts evs) = length (filter (fun e => track_succeeded e = true) evs).
Proof.
  destruct inv as [m|m|rgb d|m| | |request]; cbn [dispatch].
  - rewrite run_ImuCallback. by intros [= _ <-].
  - cbn. destruct (mutex w); [done|]. cbn. rewrite Nat.eqb_refl.
    by intros [= _ <-].
  - rewrite run_RGBDCallback.
    destruct (fst (fst (trackRGBDi rgb d (engine w)))) eqn:Hok, (rosViz_ cfg);
      intros [= _ <-]; repeat split; try reflexivity;
      cbn; rewrite Hok; cbn; reflexivity.
  - rewrite run_LidarCallback. by intros [= _ <-].
  - cbn. destruct (mutex w); [done|]. cbn. rewrite Nat.eqb_refl.
    by intros [= _ <-].
  - rewrite run_publishMapData. destruct (isTracked_ (node w));
      by intros [= _ <-].
  - rewrite run_bind, run_getMapServer. cbn. by intros [= _ <-].
Qed.

Lemma omap_cons_option_list {A B : Type} (f : A -> option B) x l :
  omap f (x :: l) = option_list (f x) ++ omap f l.
Proof. cbn. by destruct (f x). Qed.

Lemma spin_calls cfg tid invs w w' evs :
  spin cfg tid invs w = Some (w', evs) ->
  omap imu_call evs = omap imu_of invs /\
  omap odom_call evs = omap odom_of invs /\
  omap rgbd_call evs = omap rgbd_of invs /\
  omap lidar_call evs = omap lidar_of invs /\
  length (broadcasts evs) =
    length (filter (fun e => track_succeeded e = true) evs).
Proof.
  revert w evs. induction invs as [|inv invs IH]; intros w evs.
  - cbn. by intros [= _ <-].
  - cbn [spin].
    destruct (run tid (dispatch cfg inv) w) as [[[[] w1] evs1]|] eqn:E1; [|done].
    destruct (spin cfg tid invs w1) as [[w2 evs2]|] eqn:E2; [|done].
    intros [= -> <-].
    destruct (run_dispatch_calls _ _ _ _ _ _ E1) as (H1 & H2 & H3 & H4 & H5).
    destruct (IH _ _ E2) as (J1 & J2 & J3 & J4 & J5).
    unfold broadcasts in *.
    rewrite !omap_app, !omap_cons_option_list, filter_app, !length_app.
    by rewrite H1, H2, H3, H4, H5, J1, J2, J3, J4, J5.
Qed.

(** Every sensor message is handed to the wrapper exactly once and in
    arrival order: IMU samples to [handleIMU], odometry messages to
    [getMapToOdomTF], image pairs to [trackRGBDi], and point clouds to
    [handleLidarPCL] together with the stamp of their own header. *)
Theorem sensor_messages_forwarded_once_in_order cfg tid invs w :
  mutex w = None ->
  exists w' evs,
    spin cfg tid invs w = Some (w', evs) /\
    omap imu_call evs = omap imu_of invs /\
    omap odom_call evs = omap odom_of invs /\
    omap rgbd_call evs = omap rgbd_of invs /\
    omap lidar_call evs = omap lidar_of invs.
Proof.
  intros Hm. destruct (spin_total cfg tid invs w Hm) as (w' & evs & Hspin & _).
  exists w', evs. split; [done|].
  destruct (spin_calls _ _ _ _ _ _ Hspin) as (? & ? & ? & ? & _). done.
Qed.

(** Over any sequence of callbacks the transform broadcaster is used
    exactly once per [trackRGBDi] call that returned true. *)
Theorem one_broadcast_per_successful_track cfg tid invs w :
  mutex w = None ->
  exists w' evs,
    spin cfg tid invs w = Some (w', evs) /\
    length (broadcasts evs) =
      length (filter (fun e => track_succeeded e = true) evs).
Proof.
  intros Hm. destruct (spin_total cfg tid invs w Hm) as (w' & evs & Hspin & _).
  exists w', evs. split; [done|].
  by destruct (spin_calls _ _ _ _ _ _ Hspin) as (_ & _ & _ & _ & ?).
Qed.

(** *** Which callback writes which field *)

(** The fields of the node after one callback. *)
Lemma run_dispatch_fields cfg tid inv w w' evs :
  run tid (dispatch cfg inv) w = Some (tt, w', evs) ->
  match inv with
  | OnOdom m =>
      isTracked_ (node w') = isTracked_ (node w) /\
      latestTime_ (node w') = stamp (odom_header m) /\
      tfMapOdom_ (node w') =
        fst (getMapToOdomTF m (tfMapOdom_ (node w)) (engine w))
  | OnRGBD rgb d =>
      latestTime_ (node w') = latestTime_ (node w) /\
      tfMapOdom_ (node w') = tfMapOdom_ (node w)
  | _ => node w' = node w
  end.
Proof.
  destruct inv as [m|m|rgb d|m| | |request]; cbn [dispatch].
  - rewrite run_ImuCallback. by intros [= <- _].
  - cbn. destruct (mutex w); [done|]. cbn. rewrite Nat.eqb_refl.
    by intros [= <- _].
  - rewrite run_RGBDCallback.
    destruct (fst (fst (trackRGBDi rgb d (engine w)))), (rosViz_ cfg);
      by intros [= <- _].
  - rewrite run_LidarCallback. by intros [= <- _].
  - cbn. destruct (mutex w); [done|]. cbn. rewrite Nat.eqb_refl.
    intros [= <- _]. by destruct w as [[] ? ?].
  - rewrite run_publishMapData. destruct (isTracked_ (node w));
      by intros [= <- _].
  - rewrite run_bind, run_getMapServer. cbn. by intros [= <- _].
Qed.

(** The odometry callback writes [latestTime_] and [tfMapOdom_] and
    leaves [isTracked_]; the RGB-D callback can only write [isTracked_];
    the IMU and lidar callbacks, both timers and the service handler
    leave every field of the node as it was.  Each of them completes
    when the mutex is free. *)
Theorem node_fields_have_one_writer cfg tid inv w :
  mutex w = None ->
  exists w' evs,
    run tid (dispatch cfg inv) w = Some (tt, w', evs) /\
    match inv with
    | OnOdom m =>
        isTracked_ (node w') = isTracked_ (node w) /\
        latestTime_ (node w') = stamp (odom_header m) /\
        tfMapOdom_ (node w') =
          fst (getMapToOdomTF m (tfMapOdom_ (node w)) (engine w))
    | OnRGBD rgb d =>
        latestTime_ (node w') = latestTime_ (node w) /\
        tfMapOdom_ (node w') = tfMapOdom_ (node w)
    | _ => node w' = node w
    end.
Proof.
  intros Hm.
  destruct (run_dispatch_total cfg tid inv w Hm) as (w' & evs & Hrun & _).
  exists w', evs. split; [done|]. by eapply run_dispatch_fields.
Qed.

(** *** What is not gated on tracking *)

(** The traversability timer and the service handler do not look at
    [isTracked_]: with the flag set either way they perform the same
    actions, and the timer publishes both of its messages, also before
    any frame has been tracked. *)
Theorem traversability_and_service_ignore_the_flag cfg tid w b request :
  mutex w = None ->
  let wb := with_node (with_isTracked b (node w)) w in
  exists w1 w2 evs w3 w4 evs' response,
    run tid (publishTraversabilityData cfg) w = Some (tt, w1, evs) /\
    run tid (publishTraversabilityData cfg) wb = Some (tt, w2, evs) /\
    length (gridmap_msgs evs) = 1%nat /\
    length (traversability_msgs evs) = 1%nat /\
    run tid (getMapServer request) w = Some (response, w3, evs') /\
    run tid (getMapServer request) wb = Some (response, w4, evs').
Proof.
  intros Hm wb.
  rewrite !run_getMapServer.
  rewrite (run_publishTraversabilityData cfg tid w Hm).
  rewrite (run_publishTraversabilityData cfg tid wb Hm).
  eexists _, _, _, _, _, _, _. repeat split; reflexivity.
Qed.
End MoreSequential.

Section MoreConcurrent.
Context {P : Payloads} {I : ORBSLAM3Interface}.
Implicit Types (cfg : Params) (w : World) (c : Config) (i : nat).

Local Ltac walk_all :=
  repeat first
    [ progress cbn
    | progress intros
    | split
    | match goal with |- context [if ?b then _ else _] => destruct b end ];
  try done.

(** A property of the trace kept by every step from a configuration
    satisfying the invariant holds of every reachable trace. *)
Lemma reachable_ind cfg (Q : Config -> Prop) :
  (forall s, Q (Config_init s)) ->
  (forall s c c', Inv c -> Q c -> sched_step cfg s c = Some c' -> Q c') ->
  forall s ss c, sched_run cfg ss (Config_init s) = Some c -> Q c.
Proof.
  intros Hinit Hstep s ss.
  assert (Hgen : forall c0 c, Inv c0 -> Q c0 ->
            sched_run cfg ss c0 = Some c -> Q c).
  { induction ss as [|s0 ss IH]; intros c0 c HI HQ; cbn.
    - by intros [= <-].
    - destruct (sched_step cfg s0 c0) as [c1|] eqn:Hs; [|done].
      intros Hrun. eapply (IH c1); [by eapply Inv_step|by eapply Hstep|done]. }
  intros c. apply Hgen; [apply Inv_init|apply Hinit].
Qed.

(** *** The mutex guards every access to the stored time *)

(** In every interleaving, each write of [latestTime_], each read of it
    and each [getMapToOdomTF] call (the write of [tfMapOdom_]) is made by
    a thread that holds the mutex at that moment. *)
Theorem stored_time_accessed_only_under_the_mutex cfg s ss c :
  sched_run cfg ss (Config_init s) = Some c ->
  Forall (fun e => guarded_access (ev_act e) = true ->
                   ev_held e = Some (ev_tid e)) (trace c).
Proof.
  revert s ss c. apply reachable_ind.
  - intros s. constructor.
  - intros s c c' (Hth & _ & _) HQ. destruct s as [inv|i|s]; cbn.
    + by intros [= <-].
    + destruct (pool c !! i) as [[r|a k]|] eqn:Hi; [done| |done].
      destruct (exec i a (world c)) as [[x w1]|] eqn:Hex; [|done].
      intros [= <-]. cbn. constructor; [|done]. cbn. intros Hg.
      destruct (Hth i _ Hi) as (_ & ph & Hf & Hok). cbn in Hf.
      destruct a; try done; destruct ph; try done; by destruct Hok.
    + by intros [= <-].
Qed.

(** *** No deadlock *)

(** In every reachable configuration a finished thread does not hold the
    mutex, the thread that holds the mutex can perform its next action,
    and when the mutex is free every unfinished thread can. *)
Theorem no_deadlock cfg s ss c :
  sched_run cfg ss (Config_init s) = Some c ->
  (forall i, pool c !! i = Some (Ret tt) -> mutex (world c) <> Some i) /\
  (forall i, mutex (world c) = Some i ->
     is_Some (sched_step cfg (Step i) c)) /\
  (mutex (world c) = None ->
     forall i a k, pool c !! i = Some (Vis a k) ->
       is_Some (sched_step cfg (Step i) c)).
Proof.
  intros Hrun.
  destruct (Inv_run _ _ _ _ (Inv_init s) Hrun) as (Hth & _ & Hown).
  split; [|split].
  - intros i Hi Hm. destruct (Hth i _ Hi) as (_ & ph & Hf & Hok).
    cbn in Hf. subst ph. by apply Hok.
  - intros i Hm. destruct (lookup_lt_is_Some_2 _ _ (Hown i Hm)) as [p Hi].
    destruct (Hth i _ Hi) as (_ & ph & Hf & Hok). cbn. rewrite Hi.
    destruct p as [r|a k]; cbn in Hf.
    + subst ph. by destruct (Hok Hm).
    + destruct a; destruct ph; try done; cbn in Hok;
        try (by destruct (Hok Hm)); cbn; rewrite ?Hm, ?Nat.eqb_refl; eauto.
  - intros Hm i a k Hi. destruct (Hth i _ Hi) as (_ & ph & Hf & Hok).
    cbn. rewrite Hi. cbn in Hf.
    destruct a; destruct ph; try done; cbn in Hok;
      try (destruct Hok as [Hm' _]; congruence); cbn; rewrite ?Hm; eauto.
Qed.

(** *** Critical sections are short *)

Lemma unlocks_within_mono {A : Type} n m (p : Prog A) :
  (n <= m)%nat -> unlocks_within n p -> unlocks_within m p.
Proof.
  revert m p. induction n as [|n IH]; intros m p Hle; destruct p as [r|a k];
    cbn; try done.
  destruct m as [|m]; [lia|]. intros [->|Hk]; [by left|].
  right. intros x. apply (IH m); [lia|done].
Qed.

Lemma dispatch_bounded_sections cfg inv : bounded_sections (dispatch cfg inv).
Proof. destruct inv; walk_all; eauto 10. Qed.

Lemma InvRel_init s : InvRel (Config_init s).
Proof. intros i p Hi. cbn in Hi. by rewrite lookup_nil in Hi. Qed.

Lemma exec_mutex i a w x w1 :
  exec i a w = Some (x, w1) ->
  match a with
  | lock_latestTimeMutex => mutex w = None /\ mutex w1 = Some i
  | unlock_latestTimeMutex => mutex w = Some i /\ mutex w1 = None
  | _ => mutex w1 = mutex w
  end.
Proof.
  destruct a; cbn; try (by intros [= _ <-]).
  - destruct (mutex w); [done|]. by intros [= _ <-].
  - destruct (mutex w) as [o|]; [|done].
    destruct (Nat.eqb_spec o i); [|done]. subst o. by intros [= _ <-].
Qed.

Lemma InvRel_step cfg s c c' :
  Inv c -> InvRel c -> sched_step cfg s c = Some c' -> InvRel c'.
Proof.
  intros (_ & _ & Hown) HR. destruct s as [inv|i|s]; cbn.
  - intros [= <-] j p. cbn [pool world trace]. intros Hj.
    apply lookup_app_Some in Hj as [Hj|[Hge Hj]]; [by apply HR|].
    apply list_lookup_singleton_Some in Hj as [Hj <-].
    split; [apply dispatch_bounded_sections|].
    intros Hm. apply Hown in Hm. lia.
  - destruct (pool c !! i) as [[r|a k]|] eqn:Hi; [done| |done].
    destruct (exec i a (world c)) as [[x w1]|] eqn:Hex; [|done].
    intros [= <-] j p. cbn [pool world trace]. intros Hj.
    pose proof (exec_mutex _ _ _ _ _ Hex) as Hmx.
    destruct (HR i _ Hi) as ([Hlock Hbs] & Hrel).
    destruct (decide (i = j)) as [<-|Hij].
    + rewrite list_lookup_insert_eq in Hj by (by eapply lookup_lt_Some).
      injection Hj as <-. split; [apply Hbs|]. intros Hm1.
      destruct a;
        try (rewrite Hmx in Hm1; specialize (Hrel Hm1);
             cbn [unlocks_within] in Hrel; destruct Hrel as [?|Hrel]; [done|];
             by eapply (unlocks_within_mono 4 5); [lia|apply Hrel]).
      * by apply Hlock.
      * destruct Hmx as [_ Hmx]. congruence.
    + rewrite list_lookup_insert_ne in Hj by done.
      destruct (HR j _ Hj) as [? Hrelj]. split; [done|]. intros Hm1.
      apply Hrelj. destruct a; try (by rewrite <- Hmx);
        destruct Hmx as [_ Hmx]; congruence.
  - intros [= <-]. exact HR.
Qed.

Lemma InvRel_run cfg s ss c :
  sched_run cfg ss (Config_init s) = Some c -> InvRel c.
Proof.
  revert s ss c. apply reachable_ind; [apply InvRel_init|].
  intros s c c' HI HR Hs. by eapply InvRel_step.
Qed.

(** The holder of the mutex, scheduled alone, releases it. *)
Lemma holder_releases cfg n i :
  forall c p ph,
    pool c !! i = Some p -> mutex (world c) = Some i ->
    ph <> Outside -> follows ph p -> unlocks_within n p ->
    exists m c',
      (1 <= m <= n)%nat /\
      sched_run cfg (replicate m (Step i)) c = Some c' /\
      mutex (world c') = None.
Proof.
  induction n as [|n IH]; intros c p ph Hi Hm Hph Hf Hu;
    destruct p as [r|a k]; cbn in Hu; try done.
  cbn in Hf. destruct (next_phase ph a) as [ph'|] eqn:Hnp; [|done].
  assert (Hlen : (i < length (pool c))%nat) by (by eapply lookup_lt_Some).
  assert (Hdec : a = unlock_latestTimeMutex \/ a <> unlock_latestTimeMutex)
    by (destruct a; (by left) || by right).
  destruct Hdec as [->|Hne].
  - exists 1%nat. eexists. split; [lia|]. cbn. rewrite Hi. cbn.
    rewrite Hm. cbn. rewrite Nat.eqb_refl. done.
  - destruct Hu as [?|Hu]; [done|].
    assert (Hex : exists x w1, exec i a (world c) = Some (x, w1) /\
                    mutex w1 = Some i /\ ph' <> Outside).
    { destruct a; destruct ph; try done; cbn in Hnp; simplify_eq;
        cbn; eexists _, _; (split; [reflexivity|]); done. }
    destruct Hex as (x & w1 & Hex & Hm1 & Hph').
    edestruct (IH (mkConfig (<[i := k x]> (pool c)) w1
                     (mkEvent i (mutex (world c)) a x :: trace c))
                  (k x) ph') as (m & c' & Hle & Hrun & Hfree); cbn; eauto.
    { by rewrite list_lookup_insert_eq. }
    exists (S m), c'. split; [lia|]. cbn. rewrite Hi, Hex. done.
Qed.

(** In every reachable configuration in which the mutex is held, at most
    five further actions of the holder alone release it: the mutex is
    never held across more than the rest of one [OdomCallback] or one
    [publishTraversabilityData] body. *)
Theorem mutex_released_within_five_actions cfg s ss c i :
  sched_run cfg ss (Config_init s) = Some c ->
  mutex (world c) = Some i ->
  exists m c',
    (1 <= m <= 5)%nat /\
    sched_run cfg (replicate m (Step i)) c = Some c' /\
    mutex (world c') = None.
Proof.
  intros Hrun Hm.
  destruct (Inv_run _ _ _ _ (Inv_init s) Hrun) as (Hth & _ & Hown).
  destruct (lookup_lt_is_Some_2 _ _ (Hown i Hm)) as [p Hi].
  destruct (Hth i _ Hi) as (_ & ph & Hf & Hok).
  destruct (InvRel_run _ _ _ _ Hrun i p Hi) as [_ Hrel].
  eapply holder_releases; [done..| |done|by apply Hrel].
  intros ->. by apply Hok.
Qed.

(** *** Map data is published only after a successful track *)

Lemma dispatch_licensed cfg inv : licensed false (dispatch cfg inv).
Proof.
  destruct inv; walk_all.
  all: repeat match goal with
         | x : res _ |- _ => cbn in x
         | H : fst ?r = true |- _ => rewrite H
         end; cbn; try done.
Qed.

Lemma tracked_in_cons e tr :
  tracked_in tr = true -> tracked_in (e :: tr) = true.
Proof. unfold tracked_in. cbn. intros ->. by rewrite orb_true_r. Qed.

Lemma exec_isTracked_other i a w x w1 :
  exec i a w = Some (x, w1) ->
  needs_track a = false ->
  isTracked_ (node w1) = isTracked_ (node w).
Proof.
  destruct a; cbn; try done;
    try (destruct (mutex w) as [o|]; [try destruct (Nat.eqb o i)|]);
    try done; by intros [= _ <-].
Qed.

Lemma grants_sound i h a x w w1 tr :
  exec i a w = Some (x, w1) ->
  (isTracked_ (node w) = true -> tracked_in tr = true) ->
  grants a x = true ->
  tracked_in (mkEvent i h a x :: tr) = true.
Proof.
  intros Hex Hflag Hg. destruct a; try done; cbn in Hg, Hex, x.
  - apply tracked_in_cons, Hflag. by simplify_eq.
  - unfold tracked_in. cbn. by rewrite Hg.
Qed.

Lemma InvPub_init s : InvPub (Config_init s).
Proof.
  split; [done|]. split; [|done]. intros i p Hi. cbn in Hi.
  by rewrite lookup_nil in Hi.
Qed.

Lemma InvPub_step cfg s c c' :
  InvPub c -> sched_step cfg s c = Some c' -> InvPub c'.
Proof.
  intros (Hflag & Hth & Hpub). destruct s as [inv|i|s]; cbn.
  - intros [= <-]. split; [done|]. split; [|done]. cbn.
    intros j p Hj. apply lookup_app_Some in Hj as [Hj|[_ Hj]]; [by eauto|].
    apply list_lookup_singleton_Some in Hj as [_ <-].
    exists false. split; [apply dispatch_licensed|done].
  - destruct (pool c !! i) as [[r|a k]|] eqn:Hi; [done| |done].
    destruct (exec i a (world c)) as [[x w1]|] eqn:Hex; [|done].
    intros [= <-]. destruct (Hth i _ Hi) as (lic & [Hneed Hk] & Hlic).
    split; [|split]; cbn [world trace pool].
    + intros Ht. destruct (needs_track a) eqn:Hn.
      * by apply tracked_in_cons, Hlic, Hneed.
      * apply tracked_in_cons, Hflag.
        by rewrite <- (exec_isTracked_other _ _ _ _ _ Hex Hn).
    + intros j p Hj. destruct (decide (i = j)) as [<-|Hij].
      * rewrite list_lookup_insert_eq in Hj by (by eapply lookup_lt_Some).
        injection Hj as <-. eexists. split; [apply Hk|].
        intros [Hl|Hg]%orb_true_iff.
        -- by apply tracked_in_cons, Hlic.
        -- by eapply grants_sound.
      * rewrite list_lookup_insert_ne in Hj by done.
        destruct (Hth j p Hj) as (licj & ? & Hlicj).
        exists licj. split; [done|]. intros ?. by apply tracked_in_cons, Hlicj.
    + cbn [published_after_track]. split; [|done]. intros Hp.
      apply Hlic, Hneed. by destruct a.
  - intros [= <-]. split; [done|]. split; [|done]. cbn. by eauto.
Qed.

(** In every interleaving, a message is handed to [mapDataPub_] only
    after some [trackRGBDi] call has returned true, and [isTracked_] is
    true only then. *)
Theorem map_data_published_only_after_a_successful_track cfg s ss c :
  sched_run cfg ss (Config_init s) = Some c ->
  published_after_track (trace c) /\
  (isTracked_ (node (world c)) = true -> tracked_in (trace c) = true).
Proof.
  intros Hrun.
  assert (HP : InvPub c).
  { revert s ss c Hrun. apply reachable_ind; [apply InvPub_init|].
    intros s c c' _ HP Hs. by eapply InvPub_step. }
  by destruct HP as (? & _ & ?).
Qed.

(** *** What the mutex does not guard *)

Lemma dispatch_unguarded_outside cfg inv :
  unguarded_outside false (dispatch cfg inv).
Proof. destruct inv; walk_all. Qed.

Lemma InvUng_init s : InvUng (Config_init s).
Proof.
  split; [|constructor]. intros i p Hi. cbn in Hi. by rewrite lookup_nil in Hi.
Qed.

Lemma InvUng_step cfg s c c' :
  Inv c -> InvUng c -> sched_step cfg s c = Some c' -> InvUng c'.
Proof.
  intros (_ & _ & Hown) (Hth & Htr). destruct s as [inv|i|s]; cbn.
  - intros [= <-]. split; [|done]. cbn. intros j p Hj.
    apply lookup_app_Some in Hj as [Hj|[Hge Hj]]; [by eauto|].
    apply list_lookup_singleton_Some in Hj as [Hj <-].
    exists false. split; [apply dispatch_unguarded_outside|].
    intros _ Hm. apply Hown in Hm. lia.
  - destruct (pool c !! i) as [[r|a k]|] eqn:Hi; [done| |done].
    destruct (exec i a (world c)) as [[x w1]|] eqn:Hex; [|done].
    intros [= <-]. pose proof (exec_mutex _ _ _ _ _ Hex) as Hmx.
    destruct (Hth i _ Hi) as (held & [Hung Hk] & Hheld).
    split; cbn [pool world trace].
    + intros j p Hj. destruct (decide (i = j)) as [<-|Hij].
      * rewrite list_lookup_insert_eq in Hj by (by eapply lookup_lt_Some).
        injection Hj as <-. eexists. split; [apply Hk|].
        destruct a; cbn; try done; try (by rewrite Hmx);
          destruct Hmx as [_ ->]; done.
      * rewrite list_lookup_insert_ne in Hj by done.
        destruct (Hth j p Hj) as (heldj & ? & Hheldj).
        exists heldj. split; [done|]. intros Hh Hm1. apply (Hheldj Hh).
        destruct a; try (by rewrite <- Hmx);
          destruct Hmx as [Hm0 Hmx]; congruence.
    + constructor; [|done]. cbn. intros Hu. by apply Hheld, Hung.
  - intros [= <-]. split; [|done]. cbn. by eauto.
Qed.

(** In every interleaving, each read of [tfMapOdom_] and each read or
    write of [isTracked_] is made by a thread that does not hold the
    mutex at that moment: the mutex never orders these accesses. *)
Theorem transform_and_flag_accessed_outside_the_mutex cfg s ss c :
  sched_run cfg ss (Config_init s) = Some c ->
  Forall (fun e => unguarded_access (ev_act e) = true ->
                   ev_held e <> Some (ev_tid e)) (trace c).
Proof.
  intros Hrun.
  assert (HU : InvUng c).
  { revert s ss c Hrun. apply reachable_ind; [apply InvUng_init|].
    intros s c c' HI HU Hs. by eapply InvUng_step. }
  by destruct HU.
Qed.
End MoreConcurrent.

Section Readers.
Context {P : Payloads} {I : ORBSLAM3Interface}.
Implicit Types (cfg : Params) (w : World) (c : Config) (i : nat).

Lemma InvUng_run cfg s ss c :
  sched_run cfg ss (Config_init s) = Some c -> InvUng c.
Proof.
  revert s ss c. apply reachable_ind; [apply InvUng_init|].
  intros s c c' HI HU Hs. by eapply InvUng_step.
Qed.

(** *** Broadcasts and the read before them *)

Lemma dispatch_sends_what_it_read cfg inv :
  sends_what_it_read None (dispatch cfg inv).
Proof.
  destruct inv; repeat first
    [ progress cbn
    | progress intros
    | split
    | match goal with |- context [if ?b then _ else _] => destruct b end ];
    try done.
  all: by simplify_eq.
Qed.

Lemma last_of_thread_other i j e tr :
  ev_tid e = i -> i <> j -> last_of_thread j (e :: tr) = last_of_thread j tr.
Proof.
  intros <- Hij. cbn. by destruct (Nat.eqb_spec (ev_tid e) j).
Qed.

Lemma InvRead_init s : InvRead (Config_init s).
Proof.
  split; [|done]. intros i p Hi. cbn in Hi. by rewrite lookup_nil in Hi.
Qed.

Lemma InvRead_step cfg s c c' :
  InvTf c -> InvRead c -> sched_step cfg s c = Some c' -> InvRead c'.
Proof.
  intros (Htf & _ & _) (Hth & Hbr). destruct s as [inv|i|s]; cbn.
  - intros [= <-]. split; [|done]. cbn. intros j p Hj.
    apply lookup_app_Some in Hj as [Hj|[_ Hj]]; [by eauto|].
    apply list_lookup_singleton_Some in Hj as [_ <-].
    exists None. split; [apply dispatch_sends_what_it_read|done].
  - destruct (pool c !! i) as [[r|a k]|] eqn:Hi; [done| |done].
    destruct (exec i a (world c)) as [[x w1]|] eqn:Hex; [|done].
    intros [= <-]. destruct (Hth i _ Hi) as (seen & [Hsend Hk] & Hseen).
    split; cbn [pool world trace].
    + intros j p Hj. destruct (decide (i = j)) as [<-|Hij].
      * rewrite list_lookup_insert_eq in Hj by (by eapply lookup_lt_Some).
        injection Hj as <-. eexists. split; [apply Hk|].
        intros tf Hr. eexists _, _. cbn [last_of_thread ev_tid].
        rewrite Nat.eqb_refl. split; [reflexivity|]. split; [exact Hr|].
        destruct a; try done. cbn in Hr, Hex. simplify_eq. exact Htf.
      * rewrite list_lookup_insert_ne in Hj by done.
        destruct (Hth j p Hj) as (seenj & ? & Hseenj).
        exists seenj. split; [done|]. intros tf Hs.
        rewrite (last_of_thread_other i j) by done. by apply Hseenj.
    + cbn [broadcasts_what_was_read]. split; [|done]. intros tf Hsent.
      cbn [ev_tid]. apply Hseen, Hsend. destruct a; try done.
      cbn in Hsent. by simplify_eq.
  - intros [= <-]. split; [|done]. cbn. by eauto.
Qed.

Lemma InvRead_run cfg s ss c :
  sched_run cfg ss (Config_init s) = Some c -> InvRead c.
Proof.
  intros Hrun.
  assert (HB : InvTf c /\ InvRead c).
  { revert s ss c Hrun. apply reachable_ind.
    - intros s. split; [apply InvTf_init|apply InvRead_init].
    - intros s c c' _ [HT HR] Hs. split; [by eapply InvTf_step|].
      by eapply InvRead_step. }
  by destruct HB.
Qed.


End Readers.

Section MoreOnTheStub.

Import Stub.

Lemma published_config_reached :
  sched_run viz publish_after_track (Config_init 0%nat) = Some published_config.
Proof. vm_compute. reflexivity. Defined.

(** After [arrivals] the stored time is 9 s, the stamp of the second
    odometry message, and so is the stamp of the grid published next. *)
Lemma traversability_stamp_witness :
  exists w evs w' evs' g,
    spin viz 0 arrivals (World_init (I:=wrapper) 0%nat) = Some (w, evs) /\
    latestTime_ (node w) = mkTime 9 0 /\
    run 0 (publishTraversabilityData viz) w = Some (tt, w', evs') /\
    gridmap_msgs evs' = [g] /\
    og_header g = mkHeader (mkTime 9 0) "map".
Proof.
  exact (traversability_stamp_is_last_odometry_stamp (I:=wrapper) viz 0
           arrivals (World_init 0%nat) eq_refl).
Defined.

(** The wrapper calls made for [arrivals]. *)
Lemma sensor_messages_witness :
  exists w evs,
    spin viz 0 arrivals (World_init (I:=wrapper) 0%nat) = Some (w, evs) /\
    omap imu_call evs = [3%nat; 4%nat] /\
    omap odom_call evs = [odom 7 42; odom 9 43] /\
    omap rgbd_call evs = [(5%nat, 5%nat); (6%nat, 7%nat)] /\
    omap lidar_call evs =
      [(mkTime 8 0, mkPointCloud2 (mkHeader (mkTime 8 0) "velodyne") [1; 2])].
Proof.
  exact (sensor_messages_forwarded_once_in_order (I:=wrapper) viz 0 arrivals
           (World_init 0%nat) eq_refl).
Defined.

(** One of the two image pairs of [arrivals] is tracked: one broadcast. *)
Lemma one_broadcast_witness :
  exists w evs,
    spin viz 0 arrivals (World_init (I:=wrapper) 0%nat) = Some (w, evs) /\
    length (broadcasts evs) =
      length (filter (fun e => track_succeeded e = true) evs).
Proof.
  exact (one_broadcast_per_successful_track (I:=wrapper) viz 0 arrivals
           (World_init 0%nat) eq_refl).
Defined.

Lemma stored_time_witness :
  Forall (fun e => guarded_access (ev_act e) = true ->
                   ev_held e = Some (ev_tid e)) (trace track_config).
Proof.
  exact (stored_time_accessed_only_under_the_mutex (I:=wrapper) viz 0%nat
           track_during_write track_config track_config_reached).
Defined.

Lemma no_deadlock_witness :
  mutex (world reader_config) = Some 1%nat /\
  is_Some (sched_step viz (Step 1) reader_config).
Proof.
  split; [reflexivity|].
  destruct (no_deadlock (I:=wrapper) viz 0%nat reader_at_read reader_config
              reader_config_reached) as (_ & Hholder & _).
  exact (Hholder 1%nat eq_refl).
Defined.

(** At [reader_config] the traversability timer holds the mutex. *)
Lemma mutex_released_witness :
  exists m c',
    (1 <= m <= 5)%nat /\
    sched_run viz (replicate m (Step 1)) reader_config = Some c' /\
    mutex (world c') = None.
Proof.
  exact (mutex_released_within_five_actions (I:=wrapper) viz 0%nat
           reader_at_read reader_config 1%nat reader_config_reached eq_refl).
Defined.

(** At [published_config] one map-data message has been published. *)
Lemma map_data_witness :
  length (filter (fun e => is_mapData_publish e = true)
                 (trace published_config)) = 1%nat /\
  published_after_track (trace published_config).
Proof.
  split; [reflexivity|].
  exact (proj1 (map_data_published_only_after_a_successful_track (I:=wrapper)
                  viz 0%nat publish_after_track published_config
                  published_config_reached)).
Defined.

(** At [track_config] the RGB-D callback has written [isTracked_] while
    the odometry callback held the mutex. *)
Lemma transform_and_flag_witness :
  Forall (fun e => unguarded_access (ev_act e) = true ->
                   ev_held e <> Some (ev_tid e)) (trace track_config).
Proof.
  exact (transform_and_flag_accessed_outside_the_mutex (I:=wrapper) viz 0%nat
           track_during_write track_config track_config_reached).
Defined.

Lemma node_fields_witness :
  exists w' evs,
    run 0 (OdomCallback (odom 9 43)) w2 = Some (tt, w', evs) /\
    isTracked_ (node w') = true /\
    latestTime_ (node w') = mkTime 9 0 /\
    tfMapOdom_ (node w') =
      mkTransformStamped (mkHeader (mkTime 9 0) "map") "odom" 43.
Proof.
  exact (node_fields_have_one_writer (I:=wrapper) viz 0 (OnOdom (odom 9 43))
           w2 eq_refl).
Defined.

(** Before any frame has been tracked the traversability timer publishes
    both messages. *)
Lemma traversability_ungated_witness :
  exists w1' w2' evs w3 w4 evs' response,
    run 0 (publishTraversabilityData viz) w1 = Some (tt, w1', evs) /\
    run 0 (publishTraversabilityData viz)
        (with_node (with_isTracked true (node w1)) w1) = Some (tt, w2', evs) /\
    length (gridmap_msgs evs) = 1%nat /\
    length (traversability_msgs evs) = 1%nat /\
    run 0 (getMapServer (mkGetMapRequest true [7])) w1
      = Some (response, w3, evs') /\
    run 0 (getMapServer (mkGetMapRequest true [7]))
        (with_node (with_isTracked true (node w1)) w1)
      = Some (response, w4, evs').
Proof.
  exact (traversability_and_service_ignore_the_flag (I:=wrapper) viz 0 w1 true
           (mkGetMapRequest true [7]) eq_refl).
Defined.

Lemma stale_config_reached :
  sched_run viz write_between_read_and_send (Config_init 0%nat)
    = Some stale_config.
Proof. vm_compute. reflexivity. Defined.




End MoreOnTheStub.
